(** * ChampR main process: popup de-duplication, rune-page apply and
      build ingestion

    A shallow embedding of [app/main.ts].  The main process is an
    event-driven program over a handful of module-level variables
    ([lastChampion], [popupWindow], ...) and one long asynchronous IPC
    handler ([PrepareSourceData]).  Each handler is embedded as a function
    on an explicit state that also returns what the handler sends out. *)

From Stdlib Require Import Ascii String Decimal DecimalNat DecimalString.
From Stdlib Require Import QArith.
From Stdlib Require Import ZArith Bool Lia List Permutation.
Import ListNotations.

Local Open Scope Z_scope.

(** ** Popup handler ([onShowPopup], lines 206-236) and the listeners
       that share [lastChampion] and [popupWindow] *)

Module Popup.

(** [IPopupEventData] (from [@interfaces/commonTypes], only its use is in
    the source): both fields may be missing from a payload.  A missing
    [noCache] is falsy, so it is read as [false]; a missing [championId]
    is [None]. *)
Record IPopupEventData : Type := mkData {
  championId : option Z;
  noCache : bool
}.

(** What the handlers need of an Electron [BrowserWindow]. *)
Record BrowserWindow : Type := mkWindow { isVisible : bool }.

(** The module-level variables the handlers read and write. *)
Record Main : Type := mkMain {
  lastChampion : Z;
  popupWindow : option BrowserWindow
}.

(** Calls a handler makes on the popup window.  [ForPopup c] is the
    interval task of lines 226-235: it sends [for-popup {championId: c}]
    to the popup once, as soon as the popup is visible, and clears
    itself. *)
Inductive Effect : Type :=
| CreatePopupWindow
| PopupShow
| PopupFocus
| ForPopup (c : Z)
| PopupHide.

(** [createPopupWindow] builds the window with [show: false].  It places
    the popup next to the main window, which the source asserts to exist
    ([mainWindow!]); the model keeps that assertion and has no state in
    which the main window is gone. *)
Definition createPopupWindow : BrowserWindow := mkWindow false.

(** [onShowPopup].  [!data.championId] holds for a missing id and for 0;
    [lastChampion === data.championId] is strict equality of numbers.
    The assignment to [lastChampion] happens before the first [await],
    so the handler's effect on the de-duplication memory is atomic. *)
Definition onShowPopup (data : IPopupEventData) (m : Main)
  : Main * list Effect :=
  let last := if noCache data then 0 else lastChampion m in
  let quiet := (mkMain last (popupWindow m), []) in
  match championId data with
  | None => quiet
  | Some c =>
      if (c =? 0) || (last =? c) then quiet
      else
        let created :=
          match popupWindow m with
          | None => [CreatePopupWindow]
          | Some _ => []
          end in
        (mkMain c (Some (mkWindow true)),
         created ++ [PopupShow; PopupFocus; ForPopup c])
  end.

(** The events of the main process that touch the two variables. *)
Inductive Event : Type :=
| SelectedChampion (data : IPopupEventData)   (* line 595 *)
| ShowPopupIpc (data : IPopupEventData)       (* line 324 *)
| MatchedStartedOrTerminated                  (* line 598 *)
| HidePopupIpc                                (* line 328 *)
| PopupClosed.                                (* line 151 *)

(** The [LcuEvent.MatchedStartedOrTerminated] listener, lines 598-606. *)
Definition onMatchedStartedOrTerminated (m : Main) : Main * list Effect :=
  match popupWindow m with
  | Some w =>
      if isVisible w
      then (mkMain 0 (Some (mkWindow false)), [PopupHide])
      else (mkMain 0 (Some w), [])
  | None => (m, [])
  end.

Definition step (m : Main) (e : Event) : Main * list Effect :=
  match e with
  | SelectedChampion data => onShowPopup data m
  | ShowPopupIpc data => onShowPopup data m
  | MatchedStartedOrTerminated => onMatchedStartedOrTerminated m
  | HidePopupIpc =>
      match popupWindow m with
      | Some _ => (mkMain (lastChampion m) (Some (mkWindow false)), [PopupHide])
      | None => (m, [])
      end
  | PopupClosed => (mkMain (lastChampion m) None, [])
  end.

(** Events are handled one at a time, in arrival order. *)
Fixpoint run (m : Main) (es : list Event) : Main * list Effect :=
  match es with
  | [] => (m, [])
  | e :: es' =>
      let (m1, out1) := step m e in
      let (m2, out2) := run m1 es' in
      (m2, out1 ++ out2)
  end.

(** The champion ids for which a popup emission was made. *)
Fixpoint emitted (out : list Effect) : list Z :=
  match out with
  | [] => []
  | ForPopup c :: out' => c :: emitted out'
  | _ :: out' => emitted out'
  end.

(** State after start-up (lines 206, 593): nothing signalled yet, the
    popup window created and hidden. *)
Definition started : Main := mkMain 0 (Some createPopupWindow).

(** A champion-selection signal as the watcher delivers it. *)
Definition champSelect (c : Z) : IPopupEventData := mkData (Some c) false.

(** Events that neither reset the memory nor signal another champion:
    a signal for the same [c] without [noCache], or a window event. *)
Definition same_champion (c : Z) (d : IPopupEventData) : bool :=
  negb (noCache d) &&
  match championId d with Some x => x =? c | None => false end.

Definition keeps_memory (c : Z) (e : Event) : bool :=
  match e with
  | SelectedChampion d | ShowPopupIpc d => same_champion c d
  | MatchedStartedOrTerminated => false
  | HidePopupIpc | PopupClosed => true
  end.

(** [!data.championId]. *)
Definition falsy (id : option Z) : bool :=
  match id with None => true | Some c => c =? 0 end.

(** A further signal for [c] will be dropped by the guard of line 211:
    [c] is the remembered champion, or [c] is 0 and no champion at all. *)
Definition remembers (c : Z) (m : Main) : Prop :=
  c = 0 \/ lastChampion m = c.

(** Events that never clear the memory: no match end and no [noCache]
    payload. *)
Definition no_reset (e : Event) : bool :=
  match e with
  | SelectedChampion d | ShowPopupIpc d => negb (noCache d)
  | MatchedStartedOrTerminated => false
  | HidePopupIpc | PopupClosed => true
  end.

(** The champion ids the signals of a trace carry. *)
Fixpoint signalled (es : list Event) : list Z :=
  match es with
  | [] => []
  | (SelectedChampion d | ShowPopupIpc d) :: es' =>
      match championId d with
      | Some c => c :: signalled es'
      | None => signalled es'
      end
  | _ :: es' => signalled es'
  end.

(** [cs], read after [last], never shows the same id twice in a row. *)
Fixpoint noRepeat (last : Z) (cs : list Z) : bool :=
  match cs with
  | [] => true
  | c :: cs' => negb (last =? c) && noRepeat c cs'
  end.

End Popup.

(** ** The interval task of [onShowPopup] (lines 226-235) *)

Module PopupTimer.
Import Popup.

(** The main process with the interval tasks that have been set and not
    yet cleared, oldest first; a task is known by the champion id its
    closure holds. *)
Record Timed : Type := mkTimed {
  main : Main;
  pending : list Z
}.

(** One run of a task's callback: it reads the module-level
    [popupWindow] at that moment.  With no window [popupWindow!.isVisible()]
    throws inside the callback and the interval goes on; with a hidden
    window the callback returns; with a visible one it sends and clears
    the interval. *)
Inductive Tick : Type := Sent | Waiting | Threw.

Definition callback (m : Main) : Tick :=
  match popupWindow m with
  | None => Threw
  | Some w => if isVisible w then Sent else Waiting
  end.

Inductive TimedEvent : Type :=
| Handle (e : Event)        (* an event of the main process *)
| Fire (k : nat).           (* the k-th pending task's interval elapses *)

(** The step also gives the champion ids sent to the popup on
    [for-popup]. *)
Definition stepT (t : Timed) (ev : TimedEvent) : Timed * list Z :=
  match ev with
  | Handle e =>
      let (m', out) := step (main t) e in
      (mkTimed m' (pending t ++ emitted out), [])
  | Fire k =>
      match nth_error (pending t) k with
      | None => (t, [])
      | Some c =>
          match callback (main t) with
          | Sent =>
              (mkTimed (main t) (firstn k (pending t) ++ skipn (S k) (pending t)),
               [c])
          | Waiting | Threw => (t, [])
          end
      end
  end.

Fixpoint runT (t : Timed) (evs : list TimedEvent) : Timed * list Z :=
  match evs with
  | [] => (t, [])
  | ev :: evs' =>
      let (t1, sent1) := stepT t ev in
      let (t2, sent2) := runT t1 evs' in
      (t2, sent1 ++ sent2)
  end.

(** The ids the handlers of a timed trace decided to emit, in order. *)
Fixpoint handled (evs : list TimedEvent) : list Event :=
  match evs with
  | [] => []
  | Handle e :: evs' => e :: handled evs'
  | Fire _ :: evs' => handled evs'
  end.

End PopupTimer.

(** ** Rune-page apply (IPC handler [applyRunePage], lines 311-322) *)

Module RuneApplier.

Definition JobId : Type := string.

Inductive ApplyError : Type :=
| Busy
| Failed (partial : bool).

(** Modelled from the spec: [LcuWatcher.applyRunePage] ([utils/lcu]) is
    not among the sources, only its caller is.  Section 4.3: at most one
    apply call may be in flight; a call issued while another is pending is
    rejected immediately with [Busy] rather than queued.  The applier
    keeps the calls it has accepted and not yet settled. *)
Record Applier : Type := mkApplier { inFlight : list JobId }.

(** Modelled from the spec: the guard of [applyRunePage] (section 4.3).
    [inr Busy] is the immediate rejection, [inl tt] means the call was
    accepted and is now pending. *)
Definition applyRunePage (job : JobId) (a : Applier)
  : Applier * (unit + ApplyError) :=
  match inFlight a with
  | [] => (mkApplier [job], inl tt)
  | _ :: _ => (a, inr Busy)
  end.

(** What the IPC handler of [main.ts] does with the popup window. *)
Inductive Output : Type :=
| SendDone (job : JobId)             (* applyRunePage:done:<jobId> *)
| LogFailed (job : JobId) (e : ApplyError).

Inductive Event : Type :=
| ApplyIpc (job : JobId)                       (* the renderer asks *)
| Settled (result : option ApplyError).        (* the pending call ends *)

(** The handler's [try / catch / finally] once the awaited call has an
    answer for [job]: [None] is fulfilment. *)
Definition answered (isDev : bool) (job : JobId) (r : option ApplyError)
  : list Output :=
  match r with
  | None => [SendDone job]
  | Some e => [LogFailed job e]
  end ++ (if isDev then [SendDone job] else []).

Definition step (isDev : bool) (a : Applier) (e : Event)
  : Applier * list Output :=
  match e with
  | ApplyIpc job =>
      match applyRunePage job a with
      | (a', inl _) => (a', [])
      | (a', inr err) => (a', answered isDev job (Some err))
      end
  | Settled r =>
      match inFlight a with
      | [] => (a, [])
      | job :: rest => (mkApplier rest, answered isDev job r)
      end
  end.

Fixpoint run (isDev : bool) (a : Applier) (es : list Event)
  : Applier * list Output :=
  match es with
  | [] => (a, [])
  | e :: es' =>
      let (a1, out1) := step isDev a e in
      let (a2, out2) := run isDev a1 es' in
      (a2, out1 ++ out2)
  end.

Definition idle : Applier := mkApplier [].

End RuneApplier.

(** ** Build ingestion (IPC handler [PrepareSourceData], lines 332-422) *)

Module Ingest.

Local Open Scope string_scope.
Local Open Scope nat_scope.

(** *** Strings as the handler builds them *)

(** [String.prototype.toUpperCase] on the ASCII letters; source names are
    npm package names, other characters are left as they are. *)
Definition upper (c : ascii) : ascii :=
  let n := nat_of_ascii c in
  if (97 <=? n) && (n <=? 122) then ascii_of_nat (n - 32) else c.

Fixpoint toUpperCase (s : string) : string :=
  match s with
  | EmptyString => EmptyString
  | String c s' => String (upper c) (toUpperCase s')
  end.

(** A non-negative integer inside a template literal: its decimal
    digits. *)
Definition numberToString (n : nat) : string :=
  NilEmpty.string_of_uint (Nat.to_uint n).

(** JavaScript truthiness of an optional string: a missing value and the
    empty string are falsy. *)
Definition truthy (position : option string) : bool :=
  match position with
  | Some p => negb (p =? "")%string
  | None => false
  end.

(** *** Data *)

(** One item build of a descriptor; its own properties, kept as they
    were read. *)
Definition ItemBuildBlock : Type := list (string * string).

(** An entry of a descriptor file: [i] in the handler. *)
Record RawBuildFile : Type := mkRaw {
  alias : string;
  position : option string;
  itemBuilds : list ItemBuildBlock
}.

(** The object handed to [saveToFile]: the properties of [k] followed by
    [champion], [position] and [fileName]. *)
Record File : Type := mkFile {
  block : ItemBuildBlock;
  champion : string;
  file_position : option string;
  fileName : string
}.

(** The [data] of [updateStatusForMainWindowWebView]; an absent flag is
    [false], an absent field [None]. *)
Record Progress : Type := mkProgress {
  msg_source : string;
  msg : string;
  msg_champion : option string;
  msg_position : option string;
  finished : bool;
  error : bool;
  caught : option string
}.

(** A promise's fate. *)
Inductive Outcome (A : Type) : Type :=
| Resolved (a : A)
| Rejected (reason : string).
Arguments Resolved {A} a.
Arguments Rejected {A} reason.

(** What [saveToFile] resolves with: the handler only asks whether the
    value is an [Error].  A failed write is such a value, not a
    rejection. *)
Inductive WriteResult : Type :=
| Written
| Failed (reason : string).

Definition isFailed (r : WriteResult) : bool :=
  match r with Written => false | Failed _ => true end.

(** The world around one run of the handler: the configuration, the
    registry, the file system helpers of [utils/file] (not among the
    sources) and the order in which pending writes settle.  [untar] is
    the fate of the [tar.x] stream of lines 361-366: the handler pipes
    into it and goes on, it neither awaits it nor listens for its
    errors. *)
Record Env : Type := mkEnv {
  lolDir : string;
  gotJson : string -> Outcome string;
  gotBuffer : string -> Outcome string;
  ensureDir : string -> Outcome unit;
  untar : string -> string -> Outcome unit;
  updateDirStats : string -> Outcome unit;
  getAllFileContent : string -> Outcome (list (list RawBuildFile));
  saveToFile : string -> File -> WriteResult;
  settleOrder : list (File * WriteResult) -> list (File * WriteResult)
}.

(** *** File names (lines 378-387) *)

Definition pStr (position : option string) : string :=
  match position with
  | Some p => if truthy position then p ++ " - " else ""
  | None => ""
  end.

Definition fileNameOf (source : string) (position : option string)
  (champion : string) (idx : nat) : string :=
  "[" ++ toUpperCase source ++ "] " ++ pStr position ++ champion ++ "-"
      ++ numberToString (idx + 1).

(** [itemBuilds.forEach((k, idx) => ...)] from index [idx] on: the
    objects built for one entry. *)
Fixpoint filesFrom (source : string) (i : RawBuildFile)
  (builds : list ItemBuildBlock) (idx : nat) : list File :=
  match builds with
  | [] => []
  | k :: builds' =>
      mkFile k (alias i) (position i)
             (fileNameOf source (position i) (alias i) idx)
        :: filesFrom source i builds' (S idx)
  end.

Definition filesOf (source : string) (i : RawBuildFile) : list File :=
  filesFrom source i (itemBuilds i) 0.

(** The two outer [forEach] loops. *)
Definition allFiles (source : string) (files : list (list RawBuildFile))
  : list File :=
  flat_map (flat_map (filesOf source)) files.

(** *** Progress messages *)

Definition status (source text : string) : Progress :=
  mkProgress source text None None false false None.

Definition appliedMsg (source : string) (f : File) : Progress :=
  mkProgress source
    ("[" ++ source ++ "] Applied builds for "
         ++ (match file_position f with
             | Some p => if truthy (file_position f)
                         then champion f ++ "@" ++ p else champion f
             | None => champion f
             end))
    (Some (champion f)) (file_position f) false false None.

Definition finishedMsg (source : string) : Progress :=
  mkProgress source ("[" ++ source ++ "] Finished.") None None true false None.

Definition errorMsg (source reason : string) : Progress :=
  mkProgress source ("[" ++ source ++ "] Something went wrong")
             None None false true (Some reason).

(** A message that ends the pending state of the presentation layer. *)
Definition terminal (p : Progress) : bool := finished p || error p.

(** *** The handler *)

(** What a run leaves behind: the progress messages in the order sent
    and the [saveToFile] calls in the order started, each with what it
    resolved to. *)
Record Run : Type := mkRun {
  messages : list Progress;
  saved : list (File * WriteResult)
}.

(** The body of an [async] function inside [try]: it sends messages,
    starts writes, and either returns or throws. *)
Definition M (A : Type) : Type := Run -> Run * Outcome A.

Definition ret {A : Type} (a : A) : M A := fun r => (r, Resolved a).

Definition bind {A B : Type} (m : M A) (k : A -> M B) : M B :=
  fun r =>
    match m r with
    | (r1, Resolved a) => k a r1
    | (r1, Rejected reason) => (r1, Rejected reason)
    end.

Notation "x <- m ;; k" := (bind m (fun x => k))
  (at level 61, m at next level, right associativity).
Notation "m ;; k" := (bind m (fun _ => k))
  (at level 61, right associativity).

(** [await p]. *)
Definition await {A : Type} (p : Outcome A) : M A := fun r => (r, p).

(** [updateStatusForMainWindowWebView(data)]: the message is handed to
    the main window. *)
Definition updateStatus (p : Progress) : M unit :=
  fun r => (mkRun (messages r ++ [p]) (saved r), Resolved tt).

(** [try { m } catch (e) { h e }]. *)
Definition tryCatch {A : Type} (m : M A) (h : string -> M A) : M A :=
  fun r =>
    match m r with
    | (r1, Resolved a) => (r1, Resolved a)
    | (r1, Rejected reason) => h reason r1
    end.

(** Lines 388-403 for every object built: the write is started in loop
    order. *)
Definition startWrites (env : Env) (fs : list File) : M unit :=
  fun r =>
    (mkRun (messages r)
           (saved r ++ map (fun f => (f, saveToFile env (lolDir env) f)) fs),
     Resolved tt).

(** The [then] callback of lines 389-402. *)
Definition onSaved (source : string) (t : File * WriteResult)
  : list Progress :=
  match snd t with
  | Written => [appliedMsg source (fst t)]
  | Failed _ => []
  end.

(** [await Promise.all(tasks)]: every callback has run, in the order the
    writes settled, before the handler goes on; a task never rejects. *)
Definition promiseAll (env : Env) (source : string) : M unit :=
  fun r =>
    (mkRun (messages r ++ flat_map (onSaved source) (settleOrder env (saved r)))
           (saved r),
     Resolved tt).

Definition registryUrl (source : string) : string :=
  "https://registry.npmjs.com/@champ-r/" ++ source ++ "/latest".

Definition cwdOf (source : string) : string := ".npm/" ++ source ++ "/".

Definition prepareSourceData (env : Env) (source : string) : Run :=
  let url := registryUrl source in
  let cwd := cwdOf source in
  fst (tryCatch
    (tarball <- await (gotJson env url) ;;
     updateStatus (status source ("Fetched metadata for " ++ source)) ;;
     updateStatus (status source ("Downloading tarball for " ++ source)) ;;
     body <- await (gotBuffer env tarball) ;;
     updateStatus (status source ("Downloaded tarball for " ++ source)) ;;
     await (ensureDir env cwd) ;;
     (* s.pipe(tar.x({ strip: 1, cwd })) : started, never awaited *)
     updateStatus (status source ("Extracted data for " ++ source)) ;;
     (* await sleep(3000) *)
     await (updateDirStats env cwd) ;;
     files <- await (getAllFileContent env cwd) ;;
     startWrites env (allFiles source files) ;;
     promiseAll env source ;;
     updateStatus (finishedMsg source))
    (fun reason => updateStatus (errorMsg source reason))
    (mkRun [] [])).

(** *** Vocabulary of the claims *)

(** The stages of a run before the writes, in order. *)
Inductive Stage : Type :=
| Metadata | Download | EnsureDir | Extract | DirStats | ReadFiles.

(** The first stage before writing that fails in [env], if any. *)
Definition failedStage (env : Env) (source : string) : option Stage :=
  match gotJson env (registryUrl source) with
  | Rejected _ => Some Metadata
  | Resolved tarball =>
  match gotBuffer env tarball with
  | Rejected _ => Some Download
  | Resolved body =>
  match ensureDir env (cwdOf source) with
  | Rejected _ => Some EnsureDir
  | Resolved _ =>
  match untar env body (cwdOf source) with
  | Rejected _ => Some Extract
  | Resolved _ =>
  match updateDirStats env (cwdOf source) with
  | Rejected _ => Some DirStats
  | Resolved _ =>
  match getAllFileContent env (cwdOf source) with
  | Rejected _ => Some ReadFiles
  | Resolved _ => None
  end end end end end end.

(** The stages the handler awaits all succeed and the descriptors read
    are [files]. *)
Definition reachesWriting (env : Env) (source : string)
  (files : list (list RawBuildFile)) : Prop :=
  exists tarball body,
    gotJson env (registryUrl source) = Resolved tarball /\
    gotBuffer env tarball = Resolved body /\
    ensureDir env (cwdOf source) = Resolved tt /\
    updateDirStats env (cwdOf source) = Resolved tt /\
    getAllFileContent env (cwdOf source) = Resolved files.

(** The messages sent on the way to the writes, and the writes a run
    starts for the descriptors [files]. *)
Definition announced (source : string) : list Progress :=
  [status source ("Fetched metadata for " ++ source);
   status source ("Downloading tarball for " ++ source);
   status source ("Downloaded tarball for " ++ source);
   status source ("Extracted data for " ++ source)].

Definition writesOf (env : Env) (source : string)
  (files : list (list RawBuildFile)) : list (File * WriteResult) :=
  map (fun f => (f, saveToFile env (lolDir env) f)) (allFiles source files).

(** The file name as the specification words it: the upper-cased source
    in square brackets, the position and " - " unless the position is
    absent, the champion alias, a hyphen and the 1-based index [k]. *)
Definition documentedName (source : string) (position : option string)
  (championAlias : string) (k : nat) : string :=
  "[" ++ toUpperCase source ++ "] "
      ++ (if truthy position
          then match position with Some p => p | None => "" end ++ " - "
          else "")
      ++ championAlias ++ "-" ++ numberToString k.

(** How the last message of a run reads as the specification's terminal
    event.  The messages carry no [ok] field: a finished message is ok
    unless it also carries the error flag; an error message alone is the
    abort. *)
Inductive TerminalEvent : Type :=
| Finished (ok : bool)
| Aborted.

Definition reported (r : Run) : option TerminalEvent :=
  match rev (messages r) with
  | p :: _ =>
      if finished p then Some (Finished (negb (error p)))
      else if error p then Some Aborted else None
  | [] => None
  end.

(** *** The build-file directory *)

(** Modelled from the spec: [saveToFile] ([utils/file]) is not among the
    sources.  Sections 4.7 and 6: a write that succeeds stores the build
    as one file under the configured Champions directory, named by the
    build's file name, and overwrites a prior file of that name; a write
    that fails is taken to leave the directory as it was.  A directory
    maps a file name to the object stored under it. *)
Definition Directory : Type := string -> option File.

Definition store (d : Directory) (t : File * WriteResult) : Directory :=
  match snd t with
  | Written =>
      fun name => if (name =? fileName (fst t))%string then Some (fst t)
                  else d name
  | Failed _ => d
  end.

(** Writes reach the directory in the order they settle. *)
Definition storeAll (d : Directory) (ts : list (File * WriteResult))
  : Directory :=
  fold_left store ts d.

Definition directoryAfter (env : Env) (source : string) (d : Directory)
  : Directory :=
  storeAll d (settleOrder env (saved (prepareSourceData env source))).

(** *** Descriptors whose names cannot collide *)

(** The character [x] does not occur in [s]. *)
Fixpoint lacks (x : ascii) (s : string) : bool :=
  match s with
  | EmptyString => true
  | String c s' => negb (c =? x)%char && lacks x s'
  end.

Definition noSpace (s : string) : bool := lacks " " s.

(** An entry as the build sources ship it: the alias is one word and a
    position, when given, is not empty. *)
Definition plain (championAlias : string) (pos : option string) : Prop :=
  noSpace championAlias = true /\ pos <> Some "".

Definition entryKey (i : RawBuildFile) : string * option string :=
  (alias i, position i).

Definition distinctEntries (files : list (list RawBuildFile)) : Prop :=
  Forall (fun i => plain (alias i) (position i)) (concat files) /\
  NoDup (map entryKey (concat files)).

(** *** Worlds used in the examples *)

Definition ahri : RawBuildFile :=
  mkRaw "Ahri" None [[("blocks", "[3020]")]; [("blocks", "[3157]")]].

(** The registry answers, the archive unpacks as [unpack] says, the
    working directory holds [files], writes end as [save] says and
    settle in the order they were started. *)
Definition world (unpack : Outcome unit) (files : list (list RawBuildFile))
  (save : File -> WriteResult) : Env :=
  mkEnv "C:/Riot Games/League of Legends"
        (fun _ => Resolved "https://registry.npmjs.org/@champ-r/op/-/op-1.0.0.tgz")
        (fun _ => Resolved "tarball-bytes")
        (fun _ => Resolved tt)
        (fun _ _ => unpack)
        (fun _ => Resolved tt)
        (fun _ => Resolved files)
        (fun _ => save)
        (fun ts => ts).

(** The metadata lookup is answered with HTTP 404. *)
Definition registry404 : Env :=
  mkEnv "C:/Riot Games/League of Legends"
        (fun _ => Rejected "HTTPError: Response code 404 (Not Found)")
        (fun _ => Resolved "tarball-bytes")
        (fun _ => Resolved tt)
        (fun _ _ => Resolved tt)
        (fun _ => Resolved tt)
        (fun _ => Resolved [[ahri]])
        (fun _ _ => Written)
        (fun ts => ts).

(** *** Vocabulary of the further properties *)

(** The first stage the handler awaits that throws, if any: the number
    of announcements made before it and the reason thrown. *)
Definition awaitedFailure (env : Env) (source : string)
  : option (nat * string) :=
  match gotJson env (registryUrl source) with
  | Rejected reason => Some (0, reason)
  | Resolved tarball =>
  match gotBuffer env tarball with
  | Rejected reason => Some (2, reason)
  | Resolved _ =>
  match ensureDir env (cwdOf source) with
  | Rejected reason => Some (3, reason)
  | Resolved _ =>
  match updateDirStats env (cwdOf source) with
  | Rejected reason => Some (4, reason)
  | Resolved _ =>
  match getAllFileContent env (cwdOf source) with
  | Rejected reason => Some (4, reason)
  | Resolved _ => None
  end end end end end.

(** A message of the [then] callback of lines 396-401: the only
    messages that name a champion. *)
Definition isApplied (p : Progress) : bool :=
  match msg_champion p with Some _ => true | None => false end.

Definition isWritten (t : File * WriteResult) : bool := negb (isFailed (snd t)).

End Ingest.

(** ** The popup window and its stored settings (lines 118-160, 194-204,
       255-280) *)

Module Shell.

Local Open Scope Q_scope.

(** Electron's [Rectangle].  The numbers met here are screen
    coordinates and their halves, on which JavaScript arithmetic is
    exact; they are kept as rationals. *)
Record Rectangle : Type := mkRect {
  x : Q;
  y : Q;
  width : Q;
  height : Q
}.

(** What [appConfig.get(`popup`)] gives ([appConfig], of [utils/config],
    is a key/value store written with dotted keys): a number never
    stored is [None], a flag never stored is [false]. *)
Record PopupConfig : Type := mkPopupConfig {
  popup_x : option Q;
  popup_y : option Q;
  popup_width : option Q;
  popup_height : option Q;
  popup_alwaysOnTop : bool
}.

(** [v || d] on numbers: a missing value and 0 are falsy. *)
Definition orElse (v : option Q) (d : Q) : Q :=
  match v with
  | Some q => if Qeq_bool q 0 then d else q
  | None => d
  end.

(** The popup as the handlers see it. *)
Record PopupWindow : Type := mkPopup {
  getBounds : Rectangle;
  isAlwaysOnTop : bool;
  skipsTaskbar : bool
}.

(** [createPopupWindow], lines 118-160: the window has the bounds and
    flags of the options it is built with.  [curDisplay] is the bounds
    of the display nearest to the main window. *)
Definition createPopupWindow (isDev : bool) (curDisplay : Rectangle)
  (popupConfig : PopupConfig) : PopupWindow :=
  mkPopup
    (mkRect
       (orElse (popup_x popupConfig)
               (if isDev then width curDisplay / 2
                else width curDisplay - 500 - 140))
       (orElse (popup_y popupConfig) (height curDisplay / 2))
       (orElse (popup_width popupConfig) 300)
       (orElse (popup_height popupConfig) 350))
    (popup_alwaysOnTop popupConfig)
    (popup_alwaysOnTop popupConfig).

(** [persistPopUpBounds], lines 194-204. *)
Definition persistPopUpBounds (w : PopupWindow) (c : PopupConfig)
  : PopupConfig :=
  mkPopupConfig (Some (x (getBounds w))) (Some (y (getBounds w)))
                (Some (width (getBounds w))) (Some (height (getBounds w)))
                (popup_alwaysOnTop c).

Record State : Type := mkState {
  config : PopupConfig;
  popupWindow : option PopupWindow
}.

Inductive Event : Type :=
| Created (isDev : bool) (curDisplay : Rectangle)  (* lines 217, 593 *)
| UserMoves (b : Rectangle)       (* the user moves or resizes the popup *)
| PersistFires                    (* the debounced listener of lines 141-149 *)
| ToggleAlwaysOnTop               (* line 255 *)
| ResetPosition (curDisplay : Rectangle)  (* line 265 *)
| Closed.                         (* line 151 *)

Definition step (s : State) (e : Event) : State :=
  match e with
  | Created isDev curDisplay =>
      mkState (config s) (Some (createPopupWindow isDev curDisplay (config s)))
  | UserMoves b =>
      match popupWindow s with
      | Some w =>
          mkState (config s) (Some (mkPopup b (isAlwaysOnTop w) (skipsTaskbar w)))
      | None => s
      end
  | PersistFires =>
      match popupWindow s with
      | Some w => mkState (persistPopUpBounds w (config s)) (Some w)
      | None => s
      end
  | ToggleAlwaysOnTop =>
      match popupWindow s with
      | None => s
      | Some w =>
          let next := negb (isAlwaysOnTop w) in
          mkState (mkPopupConfig (popup_x (config s)) (popup_y (config s))
                                 (popup_width (config s)) (popup_height (config s))
                                 next)
                  (Some (mkPopup (getBounds w) next next))
      end
  | ResetPosition curDisplay =>
      let cx := width curDisplay / 2 in
      let cy := height curDisplay / 2 in
      let c := mkPopupConfig (Some cx) (Some cy)
                             (popup_width (config s)) (popup_height (config s))
                             true in
      match popupWindow s with
      | None => mkState c None
      | Some w =>
          mkState c
            (Some (mkPopup (mkRect cx cy (width (getBounds w)) (height (getBounds w)))
                           true (skipsTaskbar w)))
      end
  | Closed => mkState (config s) None
  end.

Definition run (s : State) (es : list Event) : State := fold_left step es s.

(** The window and the store agree on the always-on-top flag. *)
Definition agree (s : State) : Prop :=
  match popupWindow s with
  | Some w => isAlwaysOnTop w = popup_alwaysOnTop (config s)
  | None => True
  end.

(** No coordinate of the rectangle is 0. *)
Definition nowhereZero (b : Rectangle) : bool :=
  negb (Qeq_bool (x b) 0) && negb (Qeq_bool (y b) 0)
  && negb (Qeq_bool (width b) 0) && negb (Qeq_bool (height b) 0).

End Shell.

(** ** The user id (lines 491-498) *)

Module Identity.

(** [getMachineId]: [machineId] is what [node-machine-id] would answer,
    asked only when no user id is stored (a stored empty string is
    falsy); the result is the id returned and the stored value
    afterwards. *)
Definition getMachineId (machineId : string) (userId : option string)
  : string * option string :=
  match userId with
  | Some u => if (u =? "")%string then (machineId, Some machineId)
              else (u, Some u)
  | None => (machineId, Some machineId)
  end.

(** Successive calls, each with the answer [node-machine-id] would give
    at that time. *)
Fixpoint callAll (answers : list string) (userId : option string)
  : list string * option string :=
  match answers with
  | [] => ([], userId)
  | a :: answers' =>
      let (id, stored) := getMachineId a userId in
      let (ids, final) := callAll answers' stored in
      (id :: ids, final)
  end.

End Identity.

(** * Properties *)

(** ** The popup handler *)

Section PopupFacts.
Import Popup.
Local Open Scope Z_scope.

Lemma run_app (m : Main) (es1 es2 : list Event) :
  run m (es1 ++ es2) =
  (fst (run (fst (run m es1)) es2),
   snd (run m es1) ++ snd (run (fst (run m es1)) es2)).
Proof.
  revert m; induction es1 as [|ev es1 IH]; intros m; simpl.
  - destruct (run m es2); reflexivity.
  - destruct (step m ev) as [m1 out1] eqn:E1.
    rewrite IH. destruct (run m1 es1) as [m2 out2]; simpl.
    destruct (run m2 es2) as [m3 out3]; simpl.
    now rewrite app_assoc.
Qed.

Lemma emitted_app (o1 o2 : list Effect) :
  emitted (o1 ++ o2) = (emitted o1 ++ emitted o2)%list.
Proof.
  induction o1 as [|x o1 IH]; simpl; [reflexivity|].
  destruct x; simpl; now rewrite ?IH.
Qed.

(** The handler's two outcomes, read off the guard of line 211. *)
Lemma onShowPopup_quiet (d : IPopupEventData) (m : Main) :
  falsy (championId d) = true \/
  championId d = Some (if noCache d then 0 else lastChampion m) ->
  onShowPopup d m =
  (mkMain (if noCache d then 0 else lastChampion m) (popupWindow m), []).
Proof.
  unfold onShowPopup, falsy. intros [H|H].
  - destruct (championId d) as [c|]; [|reflexivity]. now rewrite H.
  - rewrite H. now rewrite Z.eqb_refl, orb_true_r.
Qed.

Lemma onShowPopup_emits (d : IPopupEventData) (m : Main) (c : Z) :
  championId d = Some c -> c <> 0 ->
  (if noCache d then 0 else lastChampion m) <> c ->
  lastChampion (fst (onShowPopup d m)) = c /\
  emitted (snd (onShowPopup d m)) = [c].
Proof.
  intros Hd Hc Hl. unfold onShowPopup. rewrite Hd.
  apply Z.eqb_neq in Hc, Hl. rewrite Hc, Hl. simpl.
  split; [reflexivity|]. now destruct (popupWindow m).
Qed.

(** Once [c] is the remembered champion (or [c] is no champion at all),
    events that keep the memory leave it so and emit nothing. *)
Lemma step_keeps_memory (c : Z) (m : Main) (ev : Event) :
  remembers c m -> keeps_memory c ev = true ->
  remembers c (fst (step m ev)) /\ emitted (snd (step m ev)) = [].
Proof.
  intros Hm Hk.
  assert (Hsig : forall d, same_champion c d = true ->
            remembers c (fst (onShowPopup d m)) /\
            emitted (snd (onShowPopup d m)) = []).
  { intros d Hd. unfold same_champion in Hd.
    apply andb_true_iff in Hd as [Hn Hx].
    destruct (noCache d) eqn:En; [discriminate|].
    destruct (championId d) as [x|] eqn:Ex; [|discriminate].
    apply Z.eqb_eq in Hx; subst x.
    rewrite onShowPopup_quiet.
    - rewrite En. simpl. split; [exact Hm | reflexivity].
    - rewrite En, Ex. destruct Hm as [H0|Hl].
      + left. subst c. reflexivity.
      + right. now rewrite Hl. }
  destruct ev; simpl in *; try discriminate; auto.
  destruct (popupWindow m); simpl; auto.
Qed.

Lemma run_keeps_memory (c : Z) (es : list Event) :
  forall m, remembers c m -> forallb (keeps_memory c) es = true ->
  remembers c (fst (run m es)) /\ emitted (snd (run m es)) = [].
Proof.
  induction es as [|ev es IH]; intros m Hm Hk; simpl.
  - split; [exact Hm | reflexivity].
  - simpl in Hk. apply andb_true_iff in Hk as [Hk1 Hk2].
    destruct (step_keeps_memory c m ev Hm Hk1) as [Hm1 Ho1].
    destruct (step m ev) as [m1 out1]; simpl in *.
    destruct (IH m1 Hm1 Hk2) as [Hm2 Ho2].
    destruct (run m1 es) as [m2 out2]; simpl in *.
    split; [exact Hm2|]. now rewrite emitted_app, Ho1, Ho2.
Qed.

(** Whatever the state, a signal for [c] leaves [c] remembered. *)
Lemma signalled_remembers (d : IPopupEventData) (m : Main) (c : Z) :
  championId d = Some c -> remembers c (fst (onShowPopup d m)).
Proof.
  intros Hd. unfold remembers.
  destruct (Z.eq_dec c 0) as [H0|H0]; [now left|right].
  destruct (Z.eq_dec (if noCache d then 0 else lastChampion m) c) as [Hl|Hl].
  - rewrite onShowPopup_quiet; [exact Hl|]. right. now rewrite Hl.
  - now apply onShowPopup_emits.
Qed.

(** C1. After championId [c] has been signalled, further signals with
    the same [c] (and window events) emit nothing, as long as no
    MatchedStartedOrTerminated event and no [noCache] payload occurs; a
    run of [n+1] identical signals for a champion not yet remembered
    emits exactly once; and the signals 103, 103, 157 emit exactly 103
    then 157. *)
Theorem champion_signalled_once
  (m : Main) (c : Z) (d : IPopupEventData) (es : list Event) (n : nat) :
  championId d = Some c ->
  forallb (keeps_memory c) es = true ->
  emitted (snd (run (fst (step m (SelectedChampion d))) es)) = []
  /\ (c <> 0 -> lastChampion m <> c ->
      emitted (snd (run m (repeat (SelectedChampion (champSelect c)) (S n))))
      = [c])
  /\ emitted (snd (run started
        (map (fun x => SelectedChampion (champSelect x)) [103; 103; 157])))
     = [103; 157].
Proof.
  intros Hd Hk. split; [|split].
  - apply (run_keeps_memory c es); [|exact Hk].
    simpl. now apply signalled_remembers.
  - intros Hc Hl. simpl.
    destruct (onShowPopup_emits (champSelect c) m c eq_refl Hc Hl) as [Hl1 He1].
    destruct (onShowPopup (champSelect c) m) as [m1 out1]; simpl in *.
    assert (Hrest : forallb (keeps_memory c)
                      (repeat (SelectedChampion (champSelect c)) n) = true).
    { clear. induction n as [|k IH]; cbn -[Z.eqb]; [reflexivity|].
      now rewrite Z.eqb_refl, IH. }
    destruct (run_keeps_memory c _ m1 (or_intror Hl1) Hrest) as [_ He2].
    destruct (run m1 _) as [m2 out2]; simpl in *.
    now rewrite emitted_app, He1, He2.
  - reflexivity.
Qed.

Lemma champion_signalled_once_witness :
  emitted (snd (run (fst (step started (SelectedChampion (champSelect 103))))
                    [ShowPopupIpc (champSelect 103); HidePopupIpc;
                     SelectedChampion (champSelect 103)])) = []
  /\ emitted (snd (run started
                    (repeat (SelectedChampion (champSelect 103)) 3))) = [103].
Proof.
  destruct (champion_signalled_once started 103 (champSelect 103)
              [ShowPopupIpc (champSelect 103); HidePopupIpc;
               SelectedChampion (champSelect 103)] 2 eq_refl eq_refl)
    as [Hquiet [Honce _]].
  split; [exact Hquiet|].
  apply Honce; simpl; lia.
Defined.

(** C3, as stated, fails.  From start-up: champion 103 is signalled, the
    popup window is closed (line 151 sets [popupWindow] to null), the
    match ends.  The listener's guard [if (popupWindow)] skips the
    reset, 103 stays remembered and a repeated 103 emits nothing. *)
Lemma match_end_without_popup_keeps_memory :
  let m := fst (run started [SelectedChampion (champSelect 103); PopupClosed]) in
  let m' := fst (step m MatchedStartedOrTerminated) in
  m = mkMain 103 None
  /\ lastChampion m' = 103
  /\ emitted (snd (step m' (SelectedChampion (champSelect 103)))) = []
  /\ ~ (forall st : Main, lastChampion (fst (step st MatchedStartedOrTerminated)) = 0).
Proof.
  repeat split.
  intros H. specialize (H (mkMain 103 None)). discriminate H.
Qed.

(** C3, amended.  When the popup window exists, the
    MatchedStartedOrTerminated listener resets the remembered champion
    to 0 whatever it was, so that the next signal for a champion [c]
    (the one last signalled included) emits again; when the popup
    window is null the listener changes nothing. *)
Theorem match_end_resets_memory
  (m : Main) (w : BrowserWindow) (d : IPopupEventData) (c : Z) :
  popupWindow m = Some w ->
  championId d = Some c ->
  c <> 0 ->
  lastChampion (fst (step m MatchedStartedOrTerminated)) = 0
  /\ emitted (snd (step (fst (step m MatchedStartedOrTerminated))
                        (SelectedChampion d))) = [c]
  /\ (forall st : Main, popupWindow st = None ->
        step st MatchedStartedOrTerminated = (st, [])).
Proof.
  intros Hw Hd Hc.
  assert (H0 : lastChampion (fst (step m MatchedStartedOrTerminated)) = 0).
  { simpl. unfold onMatchedStartedOrTerminated. rewrite Hw.
    now destruct (isVisible w). }
  split; [exact H0|split].
  - set (m' := fst (step m MatchedStartedOrTerminated)) in *.
    change (emitted (snd (onShowPopup d m')) = [c]).
    apply onShowPopup_emits; [exact Hd|exact Hc|].
    rewrite H0. destruct (noCache d); congruence.
  - intros st Hst. simpl. unfold onMatchedStartedOrTerminated. now rewrite Hst.
Qed.

Lemma match_end_resets_memory_witness :
  let m := fst (run started [SelectedChampion (champSelect 103)]) in
  lastChampion m = 103
  /\ lastChampion (fst (step m MatchedStartedOrTerminated)) = 0
  /\ emitted (snd (step (fst (step m MatchedStartedOrTerminated))
                        (SelectedChampion (champSelect 103)))) = [103].
Proof.
  intros m.
  destruct (match_end_resets_memory m (mkWindow true) (champSelect 103) 103)
    as [Hreset [Hagain _]].
  - reflexivity.
  - reflexivity.
  - lia.
  - split; [reflexivity|]. split; [exact Hreset | exact Hagain].
Defined.

(** C10. A payload whose championId is missing or 0 emits nothing and
    leaves the window alone; the remembered champion is unchanged,
    except that a [noCache] payload has reset it to 0, after which the
    next signal for any champion [c] emits, whatever was remembered. *)
Theorem falsy_champion_is_silent
  (d : IPopupEventData) (m : Main) :
  falsy (championId d) = true ->
  snd (onShowPopup d m) = []
  /\ popupWindow (fst (onShowPopup d m)) = popupWindow m
  /\ lastChampion (fst (onShowPopup d m))
     = (if noCache d then 0 else lastChampion m)
  /\ (noCache d = true ->
      forall (d' : IPopupEventData) (c : Z),
        championId d' = Some c -> c <> 0 ->
        emitted (snd (onShowPopup d' (fst (onShowPopup d m)))) = [c]).
Proof.
  intros Hf. rewrite onShowPopup_quiet by (now left). simpl.
  repeat split. intros Hn d' c Hd' Hc.
  apply onShowPopup_emits; [exact Hd'|exact Hc|].
  simpl. rewrite Hn. destruct (noCache d'); congruence.
Qed.

Lemma falsy_champion_is_silent_witness :
  let m := mkMain 103 (Some (mkWindow true)) in
  snd (onShowPopup (mkData None false) m) = []
  /\ lastChampion (fst (onShowPopup (mkData None false) m)) = 103
  /\ lastChampion (fst (onShowPopup (mkData (Some 0) true) m)) = 0
  /\ emitted (snd (onShowPopup (champSelect 103)
                     (fst (onShowPopup (mkData (Some 0) true) m)))) = [103].
Proof.
  intros m.
  destruct (falsy_champion_is_silent (mkData None false) m eq_refl)
    as [Hout [_ [Hlast _]]].
  destruct (falsy_champion_is_silent (mkData (Some 0) true) m eq_refl)
    as [_ [_ [Hzero Hnext]]].
  split; [exact Hout|]. split; [exact Hlast|]. split; [exact Hzero|].
  apply Hnext; [reflexivity|reflexivity|lia].
Defined.

End PopupFacts.

(** ** Rune-page apply *)

Section RuneApplierFacts.
Import RuneApplier.
Local Open Scope nat_scope.

Lemma step_in_flight (isDev : bool) (a : Applier) (ev : Event) :
  length (inFlight a) <= 1 ->
  length (inFlight (fst (step isDev a ev))) <= 1.
Proof.
  intros Ha. destruct ev as [job|r]; simpl.
  - unfold applyRunePage. destruct (inFlight a) eqn:E; simpl.
    + lia.
    + rewrite E. exact Ha.
  - destruct (inFlight a) as [|job rest] eqn:E; simpl in *.
    + rewrite E. simpl. lia.
    + lia.
Qed.

Lemma run_in_flight (isDev : bool) (es : list Event) :
  forall a, length (inFlight a) <= 1 ->
  length (inFlight (fst (run isDev a es))) <= 1.
Proof.
  induction es as [|ev es IH]; intros a Ha; simpl; [exact Ha|].
  pose proof (step_in_flight isDev a ev Ha) as H1.
  destruct (step isDev a ev) as [a1 out1]; simpl in H1.
  specialize (IH a1 H1). now destruct (run isDev a1 es).
Qed.

(** C9. In every state the handler can reach, at most one apply call is
    in flight; an apply request arriving while a call is pending is
    answered at once with [Busy], is not queued (the applier is left as
    it was), and what follows for the pending call is what would have
    followed without the rejected request. *)
Theorem apply_single_in_flight
  (isDev : bool) (before after : list Event) (job : JobId) :
  let a := fst (run isDev idle before) in
  length (inFlight a) <= 1
  /\ (inFlight a <> [] ->
      step isDev a (ApplyIpc job) = (a, answered isDev job (Some Busy))
      /\ run isDev a (ApplyIpc job :: after)
         = (fst (run isDev a after),
            answered isDev job (Some Busy) ++ snd (run isDev a after))).
Proof.
  intros a. split.
  - apply run_in_flight. simpl. lia.
  - intros Hp.
    assert (Hs : step isDev a (ApplyIpc job)
                 = (a, answered isDev job (Some Busy))).
    { simpl. unfold applyRunePage.
      destruct (inFlight a); [contradiction|reflexivity]. }
    split; [exact Hs|].
    change (run isDev a (ApplyIpc job :: after))
      with (let (a1, out1) := step isDev a (ApplyIpc job) in
            let (a2, out2) := run isDev a1 after in (a2, out1 ++ out2)).
    rewrite Hs. now destruct (run isDev a after).
Qed.

Lemma apply_single_in_flight_witness :
  let a := fst (run false idle [ApplyIpc "page-1"%string]) in
  inFlight a = ["page-1"%string]
  /\ step false a (ApplyIpc "page-2"%string)
     = (a, [LogFailed "page-2"%string Busy])
  /\ snd (run false a [ApplyIpc "page-2"%string; Settled None])
     = [LogFailed "page-2"%string Busy; SendDone "page-1"%string].
Proof.
  intros a.
  destruct (apply_single_in_flight false [ApplyIpc "page-1"%string]
              [Settled None] "page-2"%string) as [_ Hbusy].
  destruct Hbusy as [Hstep Hrun]; [discriminate|].
  split; [reflexivity|]. split; [exact Hstep|].
  fold a in Hrun. rewrite Hrun. reflexivity.
Defined.

End RuneApplierFacts.

(** ** Build ingestion *)

Section IngestFacts.
Import Ingest.
Local Open Scope string_scope.
Local Open Scope list_scope.
Local Open Scope nat_scope.

(** *** Shape of a run *)

Lemma onSaved_not_terminal (source : string) (ts : list (File * WriteResult)) :
  forallb (fun p => negb (terminal p)) (flat_map (onSaved source) ts) = true.
Proof.
  induction ts as [|[f r] ts IH]; simpl; [reflexivity|].
  unfold onSaved; simpl. destruct r; simpl; exact IH.
Qed.

(** A run that gets past the awaited stages sends the four
    announcements, one message per write that succeeded, in settling
    order, and the finished message; it starts every write. *)
Lemma prepareSourceData_writing (env : Env) (source : string)
  (files : list (list RawBuildFile)) :
  reachesWriting env source files ->
  prepareSourceData env source =
  mkRun (announced source
           ++ flat_map (onSaved source) (settleOrder env (writesOf env source files))
           ++ [finishedMsg source])
        (writesOf env source files).
Proof.
  intros (tarball & body & H1 & H2 & H3 & H4 & H5).
  unfold prepareSourceData, tryCatch, bind, await, updateStatus,
    startWrites, promiseAll.
  rewrite H1; simpl. rewrite H2; simpl. rewrite H3; simpl.
  rewrite H4; simpl. rewrite H5; simpl.
  unfold announced, writesOf. reflexivity.
Qed.

(** Otherwise an awaited stage has thrown: the run is the announcements
    made so far and one error message, and no write was started. *)
Lemma prepareSourceData_shape (env : Env) (source : string) :
  (exists files, reachesWriting env source files)
  \/ (exists pre reason,
        prepareSourceData env source = mkRun (pre ++ [errorMsg source reason]) []
        /\ forallb (fun p => negb (terminal p)) pre = true).
Proof.
  destruct (gotJson env (registryUrl source)) as [tarball|r1] eqn:H1.
  2:{ right. exists [], r1. split; [|reflexivity].
      unfold prepareSourceData, tryCatch, bind, await, updateStatus.
      now rewrite H1. }
  destruct (gotBuffer env tarball) as [body|r2] eqn:H2.
  2:{ right.
      exists [status source ("Fetched metadata for " ++ source)%string;
              status source ("Downloading tarball for " ++ source)%string], r2.
      split; [|reflexivity].
      unfold prepareSourceData, tryCatch, bind, await, updateStatus.
      rewrite H1; simpl. now rewrite H2. }
  destruct (ensureDir env (cwdOf source)) as [[]|r3] eqn:H3.
  2:{ right.
      exists [status source ("Fetched metadata for " ++ source)%string;
              status source ("Downloading tarball for " ++ source)%string;
              status source ("Downloaded tarball for " ++ source)%string], r3.
      split; [|reflexivity].
      unfold prepareSourceData, tryCatch, bind, await, updateStatus.
      rewrite H1; simpl. rewrite H2; simpl. now rewrite H3. }
  destruct (updateDirStats env (cwdOf source)) as [[]|r4] eqn:H4.
  2:{ right. exists (announced source), r4.
      split; [|reflexivity].
      unfold prepareSourceData, tryCatch, bind, await, updateStatus.
      rewrite H1; simpl. rewrite H2; simpl. rewrite H3; simpl. now rewrite H4. }
  destruct (getAllFileContent env (cwdOf source)) as [files|r5] eqn:H5.
  2:{ right. exists (announced source), r5.
      split; [|reflexivity].
      unfold prepareSourceData, tryCatch, bind, await, updateStatus.
      rewrite H1; simpl. rewrite H2; simpl. rewrite H3; simpl.
      rewrite H4; simpl. now rewrite H5. }
  left. exists files, tarball, body. auto.
Qed.

(** C8. Every run, whatever the world answers, ends with exactly one
    terminal progress message, the finished message or the error
    message, and that message is the last one of the run. *)
Theorem run_ends_with_one_terminal_message (env : Env) (source : string) :
  exists (pre : list Progress) (final : Progress),
    messages (prepareSourceData env source) = pre ++ [final]
    /\ forallb (fun p => negb (terminal p)) pre = true
    /\ terminal final = true
    /\ (final = finishedMsg source \/ exists reason, final = errorMsg source reason).
Proof.
  destruct (prepareSourceData_shape env source)
    as [[files Hw]|(pre & reason & Hrun & Hpre)].
  - rewrite (prepareSourceData_writing env source files Hw). simpl messages.
    exists (announced source
              ++ flat_map (onSaved source) (settleOrder env (writesOf env source files))),
           (finishedMsg source).
    split; [now rewrite <- app_assoc|].
    split; [|split; [reflexivity|now left]].
    rewrite forallb_app, onSaved_not_terminal. reflexivity.
  - rewrite Hrun. simpl messages. exists pre, (errorMsg source reason).
    split; [reflexivity|]. split; [exact Hpre|].
    split; [reflexivity|]. right. now exists reason.
Qed.

Lemma reported_last (pre : list Progress) (final : Progress) (ws : list (File * WriteResult)) :
  reported (mkRun (pre ++ [final]) ws) =
  if finished final then Some (Finished (negb (error final)))
  else if error final then Some Aborted else None.
Proof. unfold reported; simpl. now rewrite rev_unit. Qed.

(** No run ever reports a finished-but-failed outcome. *)
Lemma never_finished_not_ok (env : Env) (source : string) :
  reported (prepareSourceData env source) <> Some (Finished false).
Proof.
  destruct (prepareSourceData_shape env source)
    as [[files Hw]|(pre & reason & Hrun & _)].
  - rewrite (prepareSourceData_writing env source files Hw).
    rewrite app_assoc, reported_last. discriminate.
  - rewrite Hrun, reported_last. discriminate.
Qed.

(** C2, as stated, fails.  Both writes of the run fail, so every
    WriteResult is [Failed], and the run still ends with the plain
    finished message, the one a fully successful run ends with. *)
Lemma all_writes_failed_still_finished :
  let env := world (Resolved tt) [[ahri]]
                   (fun _ => Failed "EPERM: operation not permitted") in
  let r := prepareSourceData env "op" in
  length (saved r) = 2
  /\ forallb isFailed (map snd (saved r)) = true
  /\ reported r = Some (Finished true)
  /\ ~ (reported r = Some (Finished false)
        <-> forallb isFailed (map snd (saved r)) = true).
Proof.
  repeat split.
  intros [_ H]. specialize (H eq_refl). discriminate H.
Qed.

(** C2, amended.  A run that gets past the awaited stages starts every
    write, is never cut short by a write that fails (a failed write only
    goes without its "Applied builds" message) and always ends with the
    finished message, reported as ok, whether all, some or none of the
    writes failed; no run reports finished-but-failed. *)
Theorem finished_whatever_the_writes
  (env : Env) (source : string) (files : list (list RawBuildFile)) :
  reachesWriting env source files ->
  reported (prepareSourceData env source) = Some (Finished true)
  /\ map fst (saved (prepareSourceData env source)) = allFiles source files
  /\ map snd (saved (prepareSourceData env source))
     = map (saveToFile env (lolDir env)) (allFiles source files)
  /\ messages (prepareSourceData env source)
     = announced source
         ++ flat_map (onSaved source)
              (settleOrder env (saved (prepareSourceData env source)))
         ++ [finishedMsg source]
  /\ (forall (env' : Env) (source' : string),
        reported (prepareSourceData env' source') <> Some (Finished false)).
Proof.
  intros Hw. rewrite (prepareSourceData_writing env source files Hw).
  split; [now rewrite app_assoc, reported_last|].
  simpl saved. simpl messages. unfold writesOf. rewrite !map_map. simpl.
  split; [apply map_id|]. split; [reflexivity|].
  split; [reflexivity|]. exact never_finished_not_ok.
Qed.

Lemma finished_whatever_the_writes_witness :
  let env := world (Resolved tt) [[ahri]]
               (fun f => if (fileName f =? "[OP] Ahri-1")%string
                         then Failed "EPERM: operation not permitted"
                         else Written) in
  map snd (saved (prepareSourceData env "op"))
    = [Failed "EPERM: operation not permitted"; Written]
  /\ reported (prepareSourceData env "op") = Some (Finished true).
Proof.
  intros env.
  assert (Hw : reachesWriting env "op" [[ahri]]).
  { exists "https://registry.npmjs.org/@champ-r/op/-/op-1.0.0.tgz"%string,
           "tarball-bytes"%string.
    repeat split. }
  destruct (finished_whatever_the_writes env "op" [[ahri]] Hw)
    as [Hfin [_ [Hres _]]].
  split; [|exact Hfin]. rewrite Hres. reflexivity.
Defined.

(** *** File names and the number of writes *)

Lemma append_assoc (a b c : string) :
  ((a ++ b) ++ c = a ++ (b ++ c))%string.
Proof. induction a as [|x a IH]; simpl; [reflexivity|now rewrite IH]. Qed.

Lemma fileNameOf_documented (source : string) (pos : option string)
  (championAlias : string) (idx : nat) :
  fileNameOf source pos championAlias idx
  = documentedName source pos championAlias (S idx).
Proof.
  unfold fileNameOf, documentedName, pStr. rewrite Nat.add_1_r.
  destruct pos as [p|]; [|reflexivity]. now destruct (truthy (Some p)).
Qed.

Lemma filesFrom_names (source : string) (i : RawBuildFile)
  (builds : list ItemBuildBlock) :
  forall idx,
    map fileName (filesFrom source i builds idx)
    = map (documentedName source (position i) (alias i))
          (seq (S idx) (length builds)).
Proof.
  induction builds as [|k builds IH]; intros idx; simpl; [reflexivity|].
  now rewrite fileNameOf_documented, IH.
Qed.

Lemma filesFrom_length (source : string) (i : RawBuildFile)
  (builds : list ItemBuildBlock) :
  forall idx, length (filesFrom source i builds idx) = length builds.
Proof.
  induction builds as [|k builds IH]; intros idx; simpl; [reflexivity|].
  now rewrite IH.
Qed.

Lemma map_flat_map {A B C : Type} (f : B -> C) (g : A -> list B) (l : list A) :
  map f (flat_map g l) = flat_map (fun x => map f (g x)) l.
Proof.
  induction l as [|x l IH]; simpl; [reflexivity|].
  now rewrite map_app, IH.
Qed.

(** C5. The file names built for an entry are, in order, the documented
    names for the indices 1..N: the upper-cased source in square
    brackets, the position followed by " - " unless the position is
    absent, the alias, a hyphen and the 1-based index.  For source "op"
    and champion "Ahri" without position and with two item builds the
    run writes exactly "[OP] Ahri-1" and "[OP] Ahri-2". *)
Theorem file_names_as_documented (source : string) (i : RawBuildFile) :
  map fileName (filesOf source i)
  = map (documentedName source (position i) (alias i))
        (seq 1 (length (itemBuilds i)))
  /\ (forall (championAlias : string) (k : nat),
        documentedName source None championAlias k
        = ("[" ++ toUpperCase source ++ "] " ++ championAlias ++ "-"
               ++ numberToString k)%string)
  /\ (forall (p championAlias : string) (k : nat),
        p <> ""%string ->
        documentedName source (Some p) championAlias k
        = ("[" ++ toUpperCase source ++ "] " ++ p ++ " - " ++ championAlias
               ++ "-" ++ numberToString k)%string)
  /\ map (fun t => fileName (fst t))
         (saved (prepareSourceData
                   (world (Resolved tt)
                          [[mkRaw "Ahri" None [[("blocks", "[3020]")];
                                               [("blocks", "[3157]")]]]]
                          (fun _ => Written))
                   "op"))
     = ["[OP] Ahri-1"; "[OP] Ahri-2"].
Proof.
  split; [apply filesFrom_names|]. split; [reflexivity|].
  split; [|reflexivity].
  intros p c k Hp. unfold documentedName, truthy.
  apply String.eqb_neq in Hp. rewrite Hp. simpl negb. cbv iota.
  now rewrite append_assoc.
Qed.

(** C6. A run that gets past the awaited stages starts, for every entry,
    one write per item build: the writes are the entries' writes in
    loop order, an entry with N item builds contributes exactly N, and
    their file names are the documented names for 1..N. *)
Theorem one_write_per_item_build
  (env : Env) (source : string) (files : list (list RawBuildFile)) :
  reachesWriting env source files ->
  saved (prepareSourceData env source)
  = flat_map (flat_map (fun i =>
      map (fun f => (f, saveToFile env (lolDir env) f)) (filesOf source i)))
      files
  /\ (forall i : RawBuildFile,
        length (map (fun f => (f, saveToFile env (lolDir env) f))
                    (filesOf source i))
        = length (itemBuilds i)
        /\ map fileName (filesOf source i)
           = map (documentedName source (position i) (alias i))
                 (seq 1 (length (itemBuilds i)))).
Proof.
  intros Hw. rewrite (prepareSourceData_writing env source files Hw).
  simpl saved. split.
  - unfold writesOf, allFiles. rewrite map_flat_map. clear Hw.
    induction files as [|arr files IH]; simpl; [reflexivity|].
    rewrite IH. f_equal. apply map_flat_map.
  - intros i. split.
    + rewrite length_map. apply filesFrom_length.
    + apply filesFrom_names.
Qed.

Lemma one_write_per_item_build_witness :
  let env := world (Resolved tt)
               [[ahri]; [mkRaw "Zed" (Some "middle") [[("blocks", "[6692]")]]]]
               (fun _ => Written) in
  map (fun t => fileName (fst t)) (saved (prepareSourceData env "op"))
  = ["[OP] Ahri-1"; "[OP] Ahri-2"; "[OP] middle - Zed-1"]
  /\ length (map (fun f => (f, saveToFile env (lolDir env) f))
                 (filesOf "op" ahri)) = 2.
Proof.
  intros env.
  assert (Hw : reachesWriting env "op"
                 [[ahri]; [mkRaw "Zed" (Some "middle") [[("blocks", "[6692]")]]]]).
  { exists "https://registry.npmjs.org/@champ-r/op/-/op-1.0.0.tgz"%string,
           "tarball-bytes"%string.
    repeat split. }
  destruct (one_write_per_item_build env "op" _ Hw) as [Hsaved Hper].
  split.
  - rewrite Hsaved. reflexivity.
  - exact (proj1 (Hper ahri)).
Defined.

(** *** Failures before the writes *)

Lemma filter_error_quiet (pre : list Progress) :
  forallb (fun p => negb (terminal p)) pre = true -> filter error pre = [].
Proof.
  induction pre as [|p pre IH]; simpl; [reflexivity|].
  intros H. apply andb_true_iff in H as [Hp Hpre].
  unfold terminal in Hp. apply negb_true_iff, orb_false_iff in Hp as [_ He].
  rewrite He. now apply IH.
Qed.

(** A failure of a stage the handler awaits (metadata lookup, download,
    creation of the working directory, directory stats, reading the
    descriptors) is caught: the run sends one error message, last, and
    starts no write. *)
Lemma awaited_stage_failure_aborts (env : Env) (source : string) (st : Stage) :
  failedStage env source = Some st -> st <> Extract ->
  saved (prepareSourceData env source) = []
  /\ reported (prepareSourceData env source) = Some Aborted
  /\ length (filter error (messages (prepareSourceData env source))) = 1.
Proof.
  intros Hst Hne.
  destruct (prepareSourceData_shape env source)
    as [[files (tarball & body & H1 & H2 & H3 & H4 & H5)]
       |(pre & reason & Hrun & Hpre)].
  - exfalso. unfold failedStage in Hst.
    rewrite H1, H2, H3, H4, H5 in Hst.
    destruct (untar env body (cwdOf source)); congruence.
  - rewrite Hrun. split; [reflexivity|]. split; [apply reported_last|].
    simpl messages. rewrite filter_app, (filter_error_quiet pre Hpre).
    reflexivity.
Qed.

(** The metadata lookup answered with HTTP 404: one error message, no
    write. *)
Example registry404_aborts :
  prepareSourceData registry404 "op"
  = mkRun [errorMsg "op" "HTTPError: Response code 404 (Not Found)"] [].
Proof. reflexivity. Qed.

(** C7 on the input where it fails.  The archive does not unpack (the
    [tar.x] stream errors) while the working directory still holds a
    descriptor: the extraction stage has failed, yet the run sends no
    error message, writes both build files and reports finished. *)
Theorem extraction_failure_goes_unnoticed :
  let env := world (Rejected "TAR_BAD_ARCHIVE: Unrecognized archive format")
                   [[ahri]] (fun _ => Written) in
  failedStage env "op" = Some Extract
  /\ filter error (messages (prepareSourceData env "op")) = []
  /\ reported (prepareSourceData env "op") = Some (Finished true)
  /\ map (fun t => (fileName (fst t), snd t)) (saved (prepareSourceData env "op"))
     = [("[OP] Ahri-1", Written); ("[OP] Ahri-2", Written)].
Proof. repeat split. Qed.

(** *** When file names tell builds apart *)

Lemma append_inv_head (a b c : string) :
  (a ++ b = a ++ c)%string -> b = c.
Proof.
  induction a as [|x a IH]; simpl; intros H; [exact H|].
  injection H as H. now apply IH.
Qed.

Lemma lacks_append (x : ascii) (a b : string) :
  lacks x (a ++ b)%string = lacks x a && lacks x b.
Proof.
  induction a as [|y a IH]; simpl; [reflexivity|].
  now rewrite IH, andb_assoc.
Qed.

Lemma lacks_head (x : ascii) (s : string) : lacks x (String x s) = false.
Proof. simpl. now rewrite Ascii.eqb_refl. Qed.

(** A string is cut in one way only at the last occurrence of [x]. *)
Lemma cut_at_last (x : ascii) (a : string) :
  forall a' d d',
    lacks x d = true -> lacks x d' = true ->
    (a ++ String x d = a' ++ String x d')%string ->
    a = a' /\ d = d'.
Proof.
  induction a as [|y a IH]; intros a' d d' Hd Hd' H.
  - destruct a' as [|y' a']; simpl in H.
    + injection H as H. now split.
    + injection H as Hy H. subst y'. exfalso.
      rewrite H, lacks_append, lacks_head, andb_false_r in Hd. discriminate.
  - destruct a' as [|y' a']; simpl in H.
    + injection H as Hy H. subst y. exfalso.
      rewrite <- H, lacks_append, lacks_head, andb_false_r in Hd'. discriminate.
    + injection H as Hy H. subst y'.
      destruct (IH a' d d' Hd Hd' H) as [Ha Hdd]. now subst.
Qed.

Lemma digits_lack_hyphen (d : uint) :
  lacks "-" (NilEmpty.string_of_uint d) = true.
Proof. induction d; simpl; auto. Qed.

Lemma numberToString_inj (n n' : nat) :
  numberToString n = numberToString n' -> n = n'.
Proof.
  unfold numberToString. intros H.
  apply DecimalNat.Unsigned.to_uint_inj.
  apply (f_equal NilEmpty.uint_of_string) in H.
  rewrite !NilEmpty.usu in H. now injection H.
Qed.

Lemma pStr_given (q : string) :
  q <> ""%string -> pStr (Some q) = (q ++ " - ")%string.
Proof.
  intros Hq. unfold pStr, truthy. apply String.eqb_neq in Hq. now rewrite Hq.
Qed.

Lemma prefix_then_alias (q c : string) :
  ((q ++ " - ") ++ c = (q ++ " -") ++ String " " c)%string.
Proof.
  change (" - ")%string with (" -" ++ " ")%string.
  now rewrite <- (append_assoc q), append_assoc.
Qed.

(** The position prefix and a one-word alias can be read back from
    their concatenation. *)
Lemma prefix_alias_inj (p p' : option string) (c c' : string) :
  plain c p -> plain c' p' ->
  (pStr p ++ c = pStr p' ++ c')%string ->
  p = p' /\ c = c'.
Proof.
  intros [Hc Hp] [Hc' Hp'] H. unfold noSpace in Hc, Hc'.
  assert (Hq : forall q : string, Some q <> Some ""%string -> q <> ""%string)
    by (intros q Hq E; apply Hq; now rewrite E).
  destruct p as [q|], p' as [q'|].
  - rewrite !pStr_given, !prefix_then_alias in H by auto.
    destruct (cut_at_last " " _ _ _ _ Hc Hc' H) as [Hqq Hcc].
    change (" -")%string with (String " " "-") in Hqq.
    destruct (cut_at_last " " q q' "-" "-" eq_refl eq_refl Hqq) as [Hqq' _].
    now subst.
  - exfalso. rewrite pStr_given, prefix_then_alias in H by auto.
    simpl in H. rewrite <- H, lacks_append, lacks_head, andb_false_r in Hc'.
    discriminate.
  - exfalso. rewrite pStr_given, prefix_then_alias in H by auto.
    simpl in H. rewrite H, lacks_append, lacks_head, andb_false_r in Hc.
    discriminate.
  - simpl in H. now split.
Qed.

(** For one source, plain entries with different (alias, position,
    index) never get the same file name. *)
Lemma fileNameOf_inj (source : string) (p p' : option string)
  (c c' : string) (idx idx' : nat) :
  plain c p -> plain c' p' ->
  fileNameOf source p c idx = fileNameOf source p' c' idx' ->
  p = p' /\ c = c' /\ idx = idx'.
Proof.
  intros Hpl Hpl' H. unfold fileNameOf in H. simpl in H.
  injection H as H. apply append_inv_head in H.
  simpl in H. injection H as H.
  rewrite <- !append_assoc in H.
  destruct (cut_at_last "-" _ _ _ _
              (digits_lack_hyphen _) (digits_lack_hyphen _) H) as [Hpc Hn].
  apply numberToString_inj in Hn.
  destruct (prefix_alias_inj p p' c c' Hpl Hpl' Hpc) as [Hp Hc].
  repeat split; [exact Hp|exact Hc|lia].
Qed.

(** C4, as stated, fails: the position prefix is joined to the alias
    with no mark that the alias could not contain itself, and an empty
    position is dropped like a missing one. *)
Lemma file_names_can_collide :
  (Some "top", "Ahri", 0) <> (None, "top - Ahri", 0)
  /\ fileNameOf "op" (Some "top") "Ahri" 0 = "[OP] top - Ahri-1"
  /\ fileNameOf "op" None "top - Ahri" 0 = "[OP] top - Ahri-1"
  /\ (Some "", "Ahri", 0) <> (@None string, "Ahri", 0)
  /\ fileNameOf "op" (Some "") "Ahri" 0 = fileNameOf "op" None "Ahri" 0.
Proof. repeat split; discriminate. Qed.

Lemma in_filesFrom (source : string) (i : RawBuildFile)
  (builds : list ItemBuildBlock) (name : string) :
  forall idx,
    In name (map fileName (filesFrom source i builds idx)) ->
    exists k, idx <= k /\ name = fileNameOf source (position i) (alias i) k.
Proof.
  induction builds as [|b builds IH]; intros idx H; simpl in H; [contradiction|].
  destruct H as [H|H].
  - exists idx. split; [lia|now symmetry].
  - destruct (IH (S idx) H) as (k & Hk & Hn). exists k. split; [lia|exact Hn].
Qed.

Lemma filesFrom_NoDup (source : string) (i : RawBuildFile)
  (builds : list ItemBuildBlock) :
  plain (alias i) (position i) ->
  forall idx, NoDup (map fileName (filesFrom source i builds idx)).
Proof.
  intros Hpl. induction builds as [|b builds IH]; intros idx; simpl.
  - constructor.
  - constructor; [|apply IH].
    intros Hin. destruct (in_filesFrom _ _ _ _ _ Hin) as (k & Hk & Hn).
    apply fileNameOf_inj in Hn; [lia|exact Hpl|exact Hpl].
Qed.

Lemma flat_map_concat {A B : Type} (f : A -> list B) (ls : list (list A)) :
  flat_map (flat_map f) ls = flat_map f (concat ls).
Proof.
  induction ls as [|l ls IH]; simpl; [reflexivity|].
  now rewrite flat_map_app, IH.
Qed.

Lemma in_entries_names (source : string) (es : list RawBuildFile) (name : string) :
  In name (map fileName (flat_map (filesOf source) es)) ->
  exists i k, In i es /\ name = fileNameOf source (position i) (alias i) k.
Proof.
  induction es as [|i es IH]; simpl; [contradiction|].
  rewrite map_app, in_app_iff. intros [H|H].
  - destruct (in_filesFrom _ _ _ _ _ H) as (k & _ & Hn).
    exists i, k. split; [now left|exact Hn].
  - destruct (IH H) as (i' & k & Hi & Hn).
    exists i', k. split; [now right|exact Hn].
Qed.

(** Distinct plain entries get pairwise distinct file names. *)
Lemma allFiles_NoDup (source : string) (files : list (list RawBuildFile)) :
  distinctEntries files ->
  NoDup (map fileName (allFiles source files)).
Proof.
  unfold distinctEntries, allFiles. rewrite flat_map_concat.
  generalize (concat files) as es. intros es [Hpl Hnd].
  induction es as [|i es IH]; simpl; [constructor|].
  inversion Hpl as [|? ? Hi Hes]; subst.
  inversion Hnd as [|? ? Hnotin Hnd']; subst.
  rewrite map_app. apply NoDup_app.
  - now apply filesFrom_NoDup.
  - now apply IH.
  - intros name H1 H2.
    destruct (in_filesFrom _ _ _ _ _ H1) as (k & _ & Hn).
    destruct (in_entries_names _ _ _ H2) as (i' & k' & Hi' & Hn').
    rewrite Hn in Hn'.
    assert (Hpl' : plain (alias i') (position i')).
    { rewrite Forall_forall in Hes. now apply Hes. }
    destruct (fileNameOf_inj _ _ _ _ _ _ _ Hi Hpl' Hn') as (Hp & Hc & _).
    apply Hnotin. apply in_map_iff. exists i'.
    split; [|exact Hi']. unfold entryKey. now rewrite Hp, Hc.
Qed.

(** *** The directory after a run *)

Lemma storeAll_other (name : string) (ts : list (File * WriteResult)) :
  forall d : Directory,
    (forall t, In t ts -> snd t = Written -> fileName (fst t) <> name) ->
    storeAll d ts name = d name.
Proof.
  unfold storeAll.
  induction ts as [|t ts IH]; intros d H; simpl; [reflexivity|].
  rewrite IH by (intros t' Ht'; apply H; now right).
  unfold store. destruct (snd t) eqn:Et; [|reflexivity].
  assert (Hn : fileName (fst t) <> name) by (apply H; [now left|exact Et]).
  apply not_eq_sym, String.eqb_neq in Hn. now rewrite Hn.
Qed.

Lemma storeAll_written (f : File) (ts : list (File * WriteResult)) :
  forall d : Directory,
    NoDup (map (fun t => fileName (fst t)) ts) ->
    In (f, Written) ts ->
    storeAll d ts (fileName f) = Some f.
Proof.
  induction ts as [|t ts IH]; intros d Hnd Hin; [contradiction|].
  simpl in Hnd. inversion Hnd as [|? ? Hnotin Hnd']; subst.
  destruct Hin as [Ht|Hin].
  - subst t. change (storeAll (store d (f, Written)) ts (fileName f) = Some f).
    rewrite storeAll_other.
    + unfold store; simpl. now rewrite String.eqb_refl.
    + intros t' Ht' _ E. apply Hnotin. apply in_map_iff.
      exists t'. now split.
  - change (storeAll (store d t) ts (fileName f) = Some f). now apply IH.
Qed.

(** With pairwise distinct names the directory after the writes does not
    depend on the order in which they settled. *)
Lemma storeAll_settled (d : Directory) (ts ts' : list (File * WriteResult))
  (name : string) :
  NoDup (map (fun t => fileName (fst t)) ts) ->
  Permutation ts' ts ->
  storeAll d ts' name = storeAll d ts name.
Proof.
  intros Hnd Hperm.
  assert (Hnd' : NoDup (map (fun t => fileName (fst t)) ts')).
  { apply (Permutation_NoDup (l := map (fun t => fileName (fst t)) ts));
      [|exact Hnd].
    apply Permutation_map, Permutation_sym, Hperm. }
  destruct (find (fun t => (fileName (fst t) =? name)%string
                           && negb (isFailed (snd t))) ts) as [[f r]|] eqn:Ef.
  - apply find_some in Ef as [Hin Hb]. simpl in Hb.
    apply andb_true_iff in Hb as [Hname Hr].
    apply String.eqb_eq in Hname. destruct r; [|discriminate]. subst name.
    rewrite (storeAll_written f ts d Hnd Hin).
    apply storeAll_written; [exact Hnd'|].
    apply Permutation_in with (l := ts); [now apply Permutation_sym|exact Hin].
  - assert (Hno : forall t, In t ts -> snd t = Written ->
                            fileName (fst t) <> name).
    { intros t Ht Hw E.
      pose proof (find_none _ _ Ef t Ht) as Hb. simpl in Hb.
      rewrite E, String.eqb_refl, Hw in Hb. discriminate. }
    rewrite (storeAll_other name ts d Hno).
    apply storeAll_other. intros t Ht. apply Hno.
    apply Permutation_in with (l := ts'); [exact Hperm|exact Ht].
Qed.

(** Storing the same writes once more, in whatever order they settled
    the first time, changes nothing. *)
Lemma storeAll_again (d : Directory) (ts ts' : list (File * WriteResult))
  (name : string) :
  NoDup (map (fun t => fileName (fst t)) ts) ->
  Permutation ts' ts ->
  storeAll (storeAll d ts') ts name = storeAll d ts' name.
Proof.
  intros Hnd Hperm.
  destruct (find (fun t => (fileName (fst t) =? name)%string
                           && negb (isFailed (snd t))) ts) as [[f r]|] eqn:Ef.
  - apply find_some in Ef as [Hin Hb]. simpl in Hb.
    apply andb_true_iff in Hb as [Hname Hr].
    apply String.eqb_eq in Hname. destruct r; [|discriminate]. subst name.
    rewrite (storeAll_written f ts _ Hnd Hin).
    rewrite (storeAll_settled d ts ts' _ Hnd Hperm).
    symmetry. now apply storeAll_written.
  - apply storeAll_other. intros t Ht Hw E.
    pose proof (find_none _ _ Ef t Ht) as Hb. simpl in Hb.
    rewrite E, String.eqb_refl, Hw in Hb. discriminate.
Qed.

(** C4, amended.  For one source, entries whose alias has no space and
    whose position, when given, is not empty get different file names
    whenever they differ in alias, position or index.  Ingesting the
    same descriptors of such entries (pairwise distinct in alias and
    position) a second time, with every write ending as it did the
    first time, starts the same writes and leaves every file of the
    directory as the first run left it, in whatever order the writes
    settle. *)
Theorem plain_names_injective_and_reingest_idempotent
  (source : string) (p p' : option string) (c c' : string) (idx idx' : nat)
  (env1 env2 : Env) (files : list (list RawBuildFile))
  (d : Directory) (name : string) :
  plain c p -> plain c' p' ->
  reachesWriting env1 source files ->
  reachesWriting env2 source files ->
  distinctEntries files ->
  (forall ts, Permutation (settleOrder env1 ts) ts) ->
  (forall ts, Permutation (settleOrder env2 ts) ts) ->
  (forall f, saveToFile env2 (lolDir env2) f = saveToFile env1 (lolDir env1) f) ->
  (fileNameOf source p c idx = fileNameOf source p' c' idx' ->
   (c, p, idx) = (c', p', idx'))
  /\ saved (prepareSourceData env2 source) = saved (prepareSourceData env1 source)
  /\ directoryAfter env2 source (directoryAfter env1 source d) name
     = directoryAfter env1 source d name.
Proof.
  intros Hpl Hpl' Hw1 Hw2 Hfiles Hs1 Hs2 Hsave.
  split.
  { intros H. destruct (fileNameOf_inj _ _ _ _ _ _ _ Hpl Hpl' H) as (-> & -> & ->).
    reflexivity. }
  unfold directoryAfter.
  rewrite (prepareSourceData_writing env1 source files Hw1).
  rewrite (prepareSourceData_writing env2 source files Hw2). simpl saved.
  assert (Hsame : writesOf env2 source files = writesOf env1 source files).
  { unfold writesOf. apply map_ext. intros f. now rewrite Hsave. }
  rewrite Hsame. split; [reflexivity|].
  assert (Hnd : NoDup (map (fun t => fileName (fst t)) (writesOf env1 source files))).
  { unfold writesOf. rewrite map_map. simpl. now apply allFiles_NoDup. }
  rewrite (storeAll_settled _ (writesOf env1 source files) _ name Hnd (Hs2 _)).
  apply storeAll_again; [exact Hnd|apply Hs1].
Qed.

Lemma plain_names_injective_and_reingest_idempotent_witness :
  let env1 := world (Resolved tt) [[ahri]] (fun _ => Written) in
  let env2 := mkEnv (lolDir env1) (gotJson env1) (gotBuffer env1)
                    (ensureDir env1) (untar env1) (updateDirStats env1)
                    (getAllFileContent env1) (saveToFile env1)
                    (fun ts => rev ts) in
  let d := directoryAfter env1 "op" (fun _ => None) in
  d "[OP] Ahri-2"%string
  = Some (mkFile [("blocks", "[3157]")] "Ahri" None "[OP] Ahri-2")
  /\ directoryAfter env2 "op" d "[OP] Ahri-2"%string = d "[OP] Ahri-2"%string
  /\ (fileNameOf "op" (Some "top") "Ahri" 0 = fileNameOf "op" None "Ahri" 0 ->
      ("Ahri", Some "top", 0) = ("Ahri", @None string, 0)).
Proof.
  intros env1 env2 d.
  assert (Hw1 : reachesWriting env1 "op" [[ahri]]).
  { exists "https://registry.npmjs.org/@champ-r/op/-/op-1.0.0.tgz"%string,
           "tarball-bytes"%string.
    repeat split. }
  assert (Hw2 : reachesWriting env2 "op" [[ahri]]).
  { exists "https://registry.npmjs.org/@champ-r/op/-/op-1.0.0.tgz"%string,
           "tarball-bytes"%string.
    repeat split. }
  assert (Hfiles : distinctEntries [[ahri]]).
  { split; simpl.
    - constructor; [|constructor]. split; [reflexivity|discriminate].
    - constructor; [intros []|constructor]. }
  destruct (plain_names_injective_and_reingest_idempotent
              "op" (Some "top") None "Ahri" "Ahri" 0 0
              env1 env2 [[ahri]] (fun _ => None) "[OP] Ahri-2") as [Hinj [_ Hagain]].
  - split; [reflexivity|discriminate].
  - split; [reflexivity|discriminate].
  - exact Hw1.
  - exact Hw2.
  - exact Hfiles.
  - intros ts. apply Permutation_refl.
  - intros ts. apply Permutation_sym, Permutation_rev.
  - reflexivity.
  - split; [reflexivity|]. split; [exact Hagain|exact Hinj].
Defined.

End IngestFacts.

(** * Further properties of the code *)

(** ** What the popup handler emits over a whole trace *)

Section PopupTraceFacts.
Import Popup.
Local Open Scope Z_scope.

(** The guard of line 211 read as two cases: the handler is silent and
    only a [noCache] reset touches the memory, or it emits the payload's
    id, which is not 0, differs from the memory it found and is the
    memory from then on. *)
Lemma onShowPopup_cases (d : IPopupEventData) (m : Main) :
  (emitted (snd (onShowPopup d m)) = []
   /\ lastChampion (fst (onShowPopup d m))
      = (if noCache d then 0 else lastChampion m))
  \/ (exists c, championId d = Some c /\ c <> 0
        /\ (if noCache d then 0 else lastChampion m) <> c
        /\ emitted (snd (onShowPopup d m)) = [c]
        /\ lastChampion (fst (onShowPopup d m)) = c).
Proof.
  destruct (championId d) as [c|] eqn:Hd.
  - destruct (Z.eq_dec c 0) as [H0|H0].
    + left. rewrite onShowPopup_quiet; [now split|].
      left. rewrite Hd. simpl. now apply Z.eqb_eq.
    + destruct (Z.eq_dec (if noCache d then 0 else lastChampion m) c) as [Hl|Hl].
      * left. rewrite onShowPopup_quiet; [now split|]. right. now rewrite Hl.
      * right. exists c.
        destruct (onShowPopup_emits d m c Hd H0 Hl) as [H1 H2]. auto.
  - left. rewrite onShowPopup_quiet; [now split|]. left. now rewrite Hd.
Qed.

Lemma step_window_silent (m : Main) (e : Event) :
  match e with SelectedChampion _ | ShowPopupIpc _ => False | _ => True end ->
  emitted (snd (step m e)) = [].
Proof.
  destruct e; simpl; try contradiction; intros _.
  - unfold onMatchedStartedOrTerminated.
    destruct (popupWindow m) as [w|]; [now destruct (isVisible w)|reflexivity].
  - now destruct (popupWindow m).
  - reflexivity.
Qed.

(** Whatever the state and the trace, a popup emission is never made
    for id 0, and every id emitted is the id of a signal of the trace. *)
Theorem emitted_ids_were_signalled (es : list Event) :
  forall (m : Main) (c : Z),
    In c (emitted (snd (run m es))) -> c <> 0 /\ In c (signalled es).
Proof.
  induction es as [|e es IH]; intros m c Hin; simpl in Hin; [contradiction|].
  destruct (step m e) as [m1 out1] eqn:Es.
  specialize (IH m1 c). destruct (run m1 es) as [m2 out2]; simpl in *.
  rewrite emitted_app in Hin. apply in_app_or in Hin.
  assert (Hsig : forall d, step m e = onShowPopup d m ->
            In c (emitted out1) \/ In c (emitted out2) ->
            c <> 0 /\ In c (match championId d with
                            | Some x => x :: signalled es
                            | None => signalled es
                            end)).
  { intros d Hd [H1|H2].
    - rewrite Es in Hd.
      destruct (onShowPopup_cases d m) as [[Hq _]|(x & Hx & Hx0 & _ & Hem & _)];
        rewrite <- Hd in *; simpl in *.
      + rewrite Hq in H1. contradiction.
      + rewrite Hem in H1. destruct H1 as [->|[]].
        rewrite Hx. split; [exact Hx0|now left].
    - destruct (IH H2) as [H0 Hs]. split; [exact H0|].
      destruct (championId d); [now right|exact Hs]. }
  destruct e; simpl signalled; try (now apply Hsig).
  all: destruct Hin as [H1|H2]; [|now apply IH].
  all: match type of Es with
       | step _ ?ev = _ => pose proof (step_window_silent m ev I) as Hs
       end;
       rewrite Es in Hs; simpl in Hs; rewrite Hs in H1; contradiction.
Qed.

Lemma emitted_ids_were_signalled_witness :
  In 157 (emitted (snd (run started
            [SelectedChampion (champSelect 103); MatchedStartedOrTerminated;
             ShowPopupIpc (mkData (Some 157) true)])))
  /\ 157 <> 0
  /\ In 157 (signalled
            [SelectedChampion (champSelect 103); MatchedStartedOrTerminated;
             ShowPopupIpc (mkData (Some 157) true)]).
Proof.
  assert (Hin : In 157 (emitted (snd (run started
            [SelectedChampion (champSelect 103); MatchedStartedOrTerminated;
             ShowPopupIpc (mkData (Some 157) true)])))).
  { simpl. right. now left. }
  split; [exact Hin|].
  exact (emitted_ids_were_signalled _ started 157 Hin).
Defined.

Lemma last_cons_default (c d : Z) (l : list Z) : last (c :: l) d = last l c.
Proof.
  revert c d; induction l as [|a l IH]; intros c d; [reflexivity|].
  change (last (c :: a :: l) d) with (last (a :: l) d).
  now rewrite (IH a d), (IH a c).
Qed.

Lemma step_no_reset (m : Main) (e : Event) :
  no_reset e = true ->
  (emitted (snd (step m e)) = []
   /\ lastChampion (fst (step m e)) = lastChampion m)
  \/ (exists c, lastChampion m <> c
        /\ emitted (snd (step m e)) = [c]
        /\ lastChampion (fst (step m e)) = c).
Proof.
  intros Hn.
  assert (Hsig : forall d, noCache d = false ->
            (emitted (snd (onShowPopup d m)) = []
             /\ lastChampion (fst (onShowPopup d m)) = lastChampion m)
            \/ (exists c, lastChampion m <> c
                  /\ emitted (snd (onShowPopup d m)) = [c]
                  /\ lastChampion (fst (onShowPopup d m)) = c)).
  { intros d Hd.
    destruct (onShowPopup_cases d m) as [[Hq Hl]|(c & _ & _ & Hne & Hem & Hl)];
      rewrite Hd in *.
    - now left.
    - right. now exists c. }
  destruct e; simpl in Hn; try discriminate.
  - apply Hsig. now destruct (noCache data).
  - apply Hsig. now destruct (noCache data).
  - left. simpl. now destruct (popupWindow m).
  - left. now split.
Qed.

(** As long as no match end and no [noCache] payload occurs, the popup
    never gets the same champion twice in a row, the first emission
    differs from the champion remembered at the start, and the memory at
    the end is the last id emitted (or the initial one when nothing was
    emitted). *)
Theorem emissions_never_repeat (es : list Event) :
  forall m : Main,
    forallb no_reset es = true ->
    noRepeat (lastChampion m) (emitted (snd (run m es))) = true
    /\ lastChampion (fst (run m es))
       = last (emitted (snd (run m es))) (lastChampion m).
Proof.
  induction es as [|e es IH]; intros m Hn; simpl; [now split|].
  simpl in Hn. apply andb_true_iff in Hn as [He Hes].
  pose proof (step_no_reset m e He) as Hstep.
  destruct (step m e) as [m1 out1]; simpl in Hstep.
  specialize (IH m1 Hes). destruct (run m1 es) as [m2 out2]; simpl in *.
  rewrite emitted_app.
  destruct Hstep as [[Hq Hl]|(c & Hne & Hem & Hl)].
  - rewrite Hq, Hl in *. exact IH.
  - rewrite Hem, Hl in *. destruct IH as [IH1 IH2]. split.
    + cbn -[Z.eqb]. apply Z.eqb_neq in Hne. now rewrite Hne, IH1.
    + change ([c] ++ emitted out2)%list with (c :: emitted out2).
      now rewrite last_cons_default.
Qed.

Lemma emissions_never_repeat_witness :
  let es := [SelectedChampion (champSelect 103); HidePopupIpc;
             ShowPopupIpc (champSelect 103); SelectedChampion (champSelect 157);
             PopupClosed; SelectedChampion (champSelect 103)] in
  emitted (snd (run started es)) = [103; 157; 103]
  /\ noRepeat 0 (emitted (snd (run started es))) = true
  /\ lastChampion (fst (run started es)) = 103.
Proof.
  intros es.
  destruct (emissions_never_repeat es started eq_refl) as [Hrep Hlast].
  split; [reflexivity|]. split; [exact Hrep|].
  rewrite Hlast. reflexivity.
Defined.

End PopupTraceFacts.

(** ** The interval tasks *)

Section PopupTimerFacts.
Import Popup PopupTimer.
Local Open Scope Z_scope.

Lemma nth_error_split_at (l : list Z) :
  forall (k : nat) (c : Z),
    nth_error l k = Some c -> l = firstn k l ++ c :: skipn (S k) l.
Proof.
  induction l as [|a l IH]; intros [|k] c H; simpl in *; try discriminate.
  - now injection H as ->.
  - f_equal. now apply IH.
Qed.

Lemma stepT_accounts (t : Timed) (ev : TimedEvent) :
  main (fst (stepT t ev)) = fst (run (main t) (handled [ev]))
  /\ Permutation (snd (stepT t ev) ++ pending (fst (stepT t ev)))
                 (pending t ++ emitted (snd (run (main t) (handled [ev])))).
Proof.
  destruct ev as [e|k]; simpl.
  - destruct (step (main t) e) as [m1 out1]; simpl.
    rewrite app_nil_r. split; [reflexivity|apply Permutation_refl].
  - rewrite app_nil_r.
    destruct (nth_error (pending t) k) as [c|] eqn:Ek;
      [|split; [reflexivity|apply Permutation_refl]].
    destruct (callback (main t)); simpl;
      try (split; [reflexivity|apply Permutation_refl]).
    split; [reflexivity|].
    rewrite (nth_error_split_at _ _ _ Ek) at 3.
    apply Permutation_middle.
Qed.

Lemma runT_cons (t : Timed) (ev : TimedEvent) (evs : list TimedEvent) :
  runT t (ev :: evs)
  = (fst (runT (fst (stepT t ev)) evs),
     snd (stepT t ev) ++ snd (runT (fst (stepT t ev)) evs)).
Proof.
  change (runT t (ev :: evs))
    with (let (t1, sent1) := stepT t ev in
          let (t2, sent2) := runT t1 evs in (t2, sent1 ++ sent2)).
  destruct (stepT t ev) as [t1 sent1]. cbn [fst snd].
  now destruct (runT t1 evs).
Qed.

Lemma handled_cons (ev : TimedEvent) (evs : list TimedEvent) :
  handled (ev :: evs) = handled [ev] ++ handled evs.
Proof. destruct ev; reflexivity. Qed.

(** Every champion id a handler decided to emit is sent to the popup at
    most once and nothing else is ever sent: at any moment the ids sent
    so far together with the ids of the tasks still pending are, up to
    order, the tasks pending at the start and the ids emitted since. *)
Theorem every_emission_sent_at_most_once (evs : list TimedEvent) :
  forall t : Timed,
    main (fst (runT t evs)) = fst (run (main t) (handled evs))
    /\ Permutation (snd (runT t evs) ++ pending (fst (runT t evs)))
                   (pending t ++ emitted (snd (run (main t) (handled evs)))).
Proof.
  induction evs as [|ev evs IH]; intros t.
  - simpl. rewrite app_nil_r. split; [reflexivity|apply Permutation_refl].
  - destruct (stepT_accounts t ev) as [Hm1 Hp1].
    destruct (IH (fst (stepT t ev))) as [Hm2 Hp2].
    rewrite runT_cons, handled_cons, run_app, <- Hm1.
    cbn [fst snd]. split; [exact Hm2|].
    rewrite emitted_app, <- app_assoc.
    eapply Permutation_trans.
    + apply Permutation_app_head. exact Hp2.
    + rewrite !app_assoc. apply Permutation_app_tail. exact Hp1.
Qed.

(** A task fires in vain while the popup window is hidden or gone: it
    sends nothing and is not cleared, however often its interval
    elapses. *)
Theorem task_waits_for_visible_popup (t : Timed) (ks : list nat) :
  callback (main t) <> Sent ->
  runT t (map Fire ks) = (t, []).
Proof.
  intros Hc. induction ks as [|k ks IH]; [reflexivity|].
  change (runT t (map Fire (k :: ks)))
    with (let (t1, sent1) := stepT t (Fire k) in
          let (t2, sent2) := runT t1 (map Fire ks) in (t2, sent1 ++ sent2)).
  assert (Hs : stepT t (Fire k) = (t, [])).
  { simpl. destruct (nth_error (pending t) k); [|reflexivity].
    destruct (callback (main t)); [contradiction|reflexivity|reflexivity]. }
  rewrite Hs, IH. reflexivity.
Qed.

Lemma task_waits_for_visible_popup_witness :
  let t := fst (runT (mkTimed started [])
                     [Handle (SelectedChampion (champSelect 103));
                      Handle PopupClosed]) in
  pending t = [103] /\ runT t (map Fire [0%nat; 0%nat; 0%nat]) = (t, []).
Proof.
  intros t. split; [reflexivity|].
  apply (task_waits_for_visible_popup t [0%nat; 0%nat; 0%nat]).
  discriminate.
Defined.

(** A signal for a champion that is not 0 and not the one remembered
    sets a task which, at its first tick, sends that champion to the
    popup and is cleared; the tasks set before are untouched. *)
Theorem emission_is_delivered_at_first_tick (t : Timed) (c : Z) :
  c <> 0 -> lastChampion (main t) <> c ->
  snd (runT t [Handle (SelectedChampion (champSelect c));
               Fire (length (pending t))]) = [c]
  /\ pending (fst (runT t [Handle (SelectedChampion (champSelect c));
                           Fire (length (pending t))])) = pending t.
Proof.
  intros Hc Hl.
  assert (Hstep : onShowPopup (champSelect c) (main t)
                  = (mkMain c (Some (mkWindow true)),
                     match popupWindow (main t) with
                     | None => [CreatePopupWindow]
                     | Some _ => []
                     end ++ [PopupShow; PopupFocus; ForPopup c])).
  { unfold onShowPopup. cbn -[Z.eqb].
    apply Z.eqb_neq in Hc, Hl. now rewrite Hc, Hl. }
  assert (Hem : emitted (match popupWindow (main t) with
                         | None => [CreatePopupWindow]
                         | Some _ => []
                         end ++ [PopupShow; PopupFocus; ForPopup c]) = [c])
    by (now destruct (popupWindow (main t))).
  cbn [runT stepT step]. rewrite Hstep, Hem. cbn [main pending callback popupWindow isVisible].
  rewrite nth_error_app2, Nat.sub_diag by lia. cbn [nth_error].
  rewrite firstn_app, firstn_all, Nat.sub_diag.
  rewrite skipn_app, skipn_all2 by lia.
  replace (S (length (pending t)) - length (pending t))%nat with 1%nat by lia.
  cbn. now rewrite !app_nil_r.
Qed.

Lemma emission_is_delivered_at_first_tick_witness :
  snd (runT (mkTimed started [])
            [Handle (SelectedChampion (champSelect 103)); Fire 0]) = [103]
  /\ pending (fst (runT (mkTimed started [])
            [Handle (SelectedChampion (champSelect 103)); Fire 0])) = [].
Proof.
  apply (emission_is_delivered_at_first_tick (mkTimed started []) 103);
    simpl; lia.
Defined.

End PopupTimerFacts.

(** ** More on build ingestion *)

Section IngestRunFacts.
Import Ingest.
Local Open Scope string_scope.
Local Open Scope list_scope.
Local Open Scope nat_scope.

Lemma awaitedFailure_none (env : Env) (source : string) :
  awaitedFailure env source = None ->
  exists files, reachesWriting env source files.
Proof.
  unfold awaitedFailure, reachesWriting. intros H.
  destruct (gotJson env (registryUrl source)) as [tarball|] eqn:H1;
    [|discriminate].
  destruct (gotBuffer env tarball) as [body|] eqn:H2; [|discriminate].
  destruct (ensureDir env (cwdOf source)) as [[]|] eqn:H3; [|discriminate].
  destruct (updateDirStats env (cwdOf source)) as [[]|] eqn:H4; [|discriminate].
  destruct (getAllFileContent env (cwdOf source)) as [files|] eqn:H5;
    [|discriminate].
  exists files, tarball, body. auto.
Qed.

Lemma aborted_run (env : Env) (source : string) (k : nat) (reason : string) :
  awaitedFailure env source = Some (k, reason) ->
  prepareSourceData env source
  = mkRun (firstn k (announced source) ++ [errorMsg source reason]) [].
Proof.
  intros H. unfold awaitedFailure in H.
  unfold prepareSourceData, tryCatch, bind, await, updateStatus,
    startWrites, promiseAll.
  destruct (gotJson env (registryUrl source)) as [tarball|r1]; simpl.
  2:{ injection H as <- <-. reflexivity. }
  destruct (gotBuffer env tarball) as [body|r2]; simpl.
  2:{ injection H as <- <-. reflexivity. }
  destruct (ensureDir env (cwdOf source)) as [[]|r3]; simpl.
  2:{ injection H as <- <-. reflexivity. }
  destruct (updateDirStats env (cwdOf source)) as [[]|r4]; simpl.
  2:{ injection H as <- <-. reflexivity. }
  destruct (getAllFileContent env (cwdOf source)) as [files|r5]; simpl.
  2:{ injection H as <- <-. reflexivity. }
  discriminate.
Qed.

(** When an awaited stage throws, the run is exactly the announcements
    of the steps completed before it followed by one error message that
    carries the reason thrown, and no write is started: nothing after a
    failed metadata lookup, the first two announcements after a failed
    download, three when the working directory cannot be made, all four
    when the directory cannot be read. *)
Theorem abort_reports_first_failure
  (env : Env) (source : string) (k : nat) (reason : string) :
  awaitedFailure env source = Some (k, reason) ->
  prepareSourceData env source
  = mkRun (firstn k (announced source) ++ [errorMsg source reason]) []
  /\ caught (last (messages (prepareSourceData env source)) (finishedMsg source))
     = Some reason.
Proof.
  intros H. pose proof (aborted_run env source k reason H) as Hrun.
  split; [exact Hrun|]. rewrite Hrun. simpl messages.
  now rewrite last_last.
Qed.

Lemma abort_reports_first_failure_witness :
  let env := mkEnv "C:/Riot Games/League of Legends"
        (fun _ => Resolved "https://registry.npmjs.org/@champ-r/op/-/op-1.0.0.tgz")
        (fun _ => Rejected "RequestError: connect ETIMEDOUT")
        (fun _ => Resolved tt) (fun _ _ => Resolved tt) (fun _ => Resolved tt)
        (fun _ => Resolved [[ahri]]) (fun _ _ => Written) (fun ts => ts) in
  map msg (messages (prepareSourceData env "op"))
  = ["Fetched metadata for op"; "Downloading tarball for op";
     "[op] Something went wrong"]
  /\ saved (prepareSourceData env "op") = [].
Proof.
  intros env.
  destruct (abort_reports_first_failure env "op" 2
              "RequestError: connect ETIMEDOUT" eq_refl) as [Hrun _].
  rewrite Hrun. split; reflexivity.
Defined.

(** Every progress message of a run, in every world, is tagged with the
    source the run was asked for. *)
Theorem messages_carry_source (env : Env) (source : string) :
  Forall (fun p => msg_source p = source)
         (messages (prepareSourceData env source)).
Proof.
  assert (Hann : forall k, Forall (fun p => msg_source p = source)
                             (firstn k (announced source))).
  { intros k. assert (Hall : Forall (fun p => msg_source p = source)
                                      (announced source))
      by (now repeat constructor).
    revert k. induction Hall as [|p l Hp Hl IH]; intros [|k]; simpl;
      constructor; [exact Hp|apply IH]. }
  destruct (awaitedFailure env source) as [[k reason]|] eqn:Hf.
  - pose proof (aborted_run env source k reason Hf) as Hrun.
    rewrite Hrun. cbn [messages]. apply Forall_app. split; [apply Hann|].
    now constructor.
  - destruct (awaitedFailure_none env source Hf) as [files Hw].
    rewrite (prepareSourceData_writing env source files Hw). cbn [messages].
    apply Forall_app. split; [exact (Hann 4)|].
    apply Forall_app. split; [|now constructor].
    generalize (settleOrder env (writesOf env source files)) as ts.
    induction ts as [|[f r] ts IH]; simpl; [constructor|].
    apply Forall_app. split; [|exact IH].
    unfold onSaved; simpl. destruct r; now repeat constructor.
Qed.

(** A run ends in one of two ways and the last message tells which: it
    reports an error and has started no write at all, or it reports
    finished and has started a write for every item build of the
    descriptors it read. *)
Theorem error_means_nothing_written (env : Env) (source : string) :
  (reported (prepareSourceData env source) = Some Aborted
   /\ saved (prepareSourceData env source) = [])
  \/ (reported (prepareSourceData env source) = Some (Finished true)
      /\ exists files,
           getAllFileContent env (cwdOf source) = Resolved files
           /\ saved (prepareSourceData env source) = writesOf env source files).
Proof.
  destruct (awaitedFailure env source) as [[k reason]|] eqn:Hf.
  - left. pose proof (aborted_run env source k reason Hf) as Hrun.
    rewrite Hrun. split; [apply reported_last|reflexivity].
  - right. destruct (awaitedFailure_none env source Hf) as [files Hw].
    rewrite (prepareSourceData_writing env source files Hw).
    split; [now rewrite app_assoc, reported_last|].
    exists files. split; [|reflexivity].
    destruct Hw as (tarball & body & _ & _ & _ & _ & H5). exact H5.
Qed.

(** *** Which writes are reported *)

Lemma filter_applied_onSaved (source : string) (ts : list (File * WriteResult)) :
  filter isApplied (flat_map (onSaved source) ts)
  = map (fun t => appliedMsg source (fst t)) (filter isWritten ts).
Proof.
  induction ts as [|[f r] ts IH]; [reflexivity|].
  cbn [flat_map]. rewrite filter_app, IH.
  unfold onSaved, isWritten. now destruct r.
Qed.

Lemma filter_applied_announced (source : string) (k : nat) :
  filter isApplied (firstn k (announced source)) = [].
Proof.
  destruct k as [|[|[|[|k]]]]; try reflexivity.
  unfold announced. cbn [firstn]. now rewrite firstn_nil.
Qed.

Lemma Permutation_filter_same {A : Type} (f : A -> bool) (l l' : list A) :
  Permutation l l' -> Permutation (filter f l) (filter f l').
Proof.
  induction 1 as [|x l l' _ IH|x y l|l l' l'' _ IH1 _ IH2]; simpl.
  - constructor.
  - destruct (f x); [now constructor|exact IH].
  - destruct (f x), (f y); try apply Permutation_refl. constructor.
  - now apply Permutation_trans with (l' := filter f l').
Qed.

(** When the writes settle in some order of the writes started, the
    messages that name a champion are, in settling order, one "Applied
    builds" message for each write that succeeded and none for a write
    that failed: there are as many such messages as successful writes,
    and every successful write has its message. *)
Theorem successful_writes_are_reported (env : Env) (source : string) :
  (forall ts, Permutation (settleOrder env ts) ts) ->
  filter isApplied (messages (prepareSourceData env source))
  = map (fun t => appliedMsg source (fst t))
        (filter isWritten (settleOrder env (saved (prepareSourceData env source))))
  /\ length (filter isApplied (messages (prepareSourceData env source)))
     = length (filter isWritten (saved (prepareSourceData env source)))
  /\ (forall f, In (f, Written) (saved (prepareSourceData env source)) ->
        In (appliedMsg source f) (messages (prepareSourceData env source))).
Proof.
  intros Hperm.
  assert (Hmsgs : filter isApplied (messages (prepareSourceData env source))
    = map (fun t => appliedMsg source (fst t))
        (filter isWritten
           (settleOrder env (saved (prepareSourceData env source))))).
  { destruct (awaitedFailure env source) as [[k reason]|] eqn:Hf.
    - pose proof (aborted_run env source k reason Hf) as Hrun.
      rewrite Hrun. cbn [messages saved].
      rewrite (Permutation_nil (Permutation_sym (Hperm []))).
      now rewrite filter_app, filter_applied_announced.
    - destruct (awaitedFailure_none env source Hf) as [files Hw].
      rewrite (prepareSourceData_writing env source files Hw).
      cbn [messages saved].
      rewrite !filter_app, filter_applied_onSaved.
      change (filter isApplied (announced source)) with (@nil Progress).
      simpl. now rewrite app_nil_r. }
  split; [exact Hmsgs|]. split.
  - rewrite Hmsgs, length_map.
    apply Permutation_length, Permutation_filter_same, Hperm.
  - intros f Hin.
    assert (Hf : In (appliedMsg source f)
                    (filter isApplied (messages (prepareSourceData env source)))).
    { rewrite Hmsgs. apply in_map_iff. exists (f, Written).
      split; [reflexivity|]. apply filter_In. split; [|reflexivity].
      apply Permutation_in with (l := saved (prepareSourceData env source));
        [apply Permutation_sym, Hperm|exact Hin]. }
    apply filter_In in Hf. exact (proj1 Hf).
Qed.

Lemma successful_writes_are_reported_witness :
  let env := mkEnv "C:/Riot Games/League of Legends"
        (fun _ => Resolved "https://registry.npmjs.org/@champ-r/op/-/op-1.0.0.tgz")
        (fun _ => Resolved "tarball-bytes")
        (fun _ => Resolved tt) (fun _ _ => Resolved tt) (fun _ => Resolved tt)
        (fun _ => Resolved [[ahri]])
        (fun _ f => if (fileName f =? "[OP] Ahri-1")%string
                    then Failed "EPERM: operation not permitted" else Written)
        (fun ts => rev ts) in
  map msg (filter isApplied (messages (prepareSourceData env "op")))
  = ["[op] Applied builds for Ahri"]
  /\ length (filter isWritten (saved (prepareSourceData env "op"))) = 1.
Proof.
  intros env.
  destruct (successful_writes_are_reported env "op") as [Hm [Hlen _]].
  - intros ts. apply Permutation_sym, Permutation_rev.
  - split; [rewrite Hm; reflexivity|]. rewrite <- Hlen, Hm. reflexivity.
Defined.

(** *** What a write carries *)

Lemma filesFrom_blocks (source : string) (i : RawBuildFile)
  (builds : list ItemBuildBlock) :
  forall idx,
    map block (filesFrom source i builds idx) = builds
    /\ Forall (fun f => champion f = alias i /\ file_position f = position i)
              (filesFrom source i builds idx).
Proof.
  induction builds as [|k builds IH]; intros idx; simpl.
  - split; [reflexivity|constructor].
  - destruct (IH (S idx)) as [Hb Hf]. split; [now rewrite Hb|].
    constructor; [now split|exact Hf].
Qed.

Lemma allFiles_blocks (source : string) (files : list (list RawBuildFile)) :
  map block (allFiles source files) = flat_map (flat_map itemBuilds) files.
Proof.
  unfold allFiles. rewrite map_flat_map.
  induction files as [|arr files IH]; simpl; [reflexivity|].
  rewrite IH. f_equal. rewrite map_flat_map. clear IH.
  induction arr as [|i arr IHa]; simpl; [reflexivity|].
  rewrite IHa. f_equal. apply filesFrom_blocks.
Qed.


(** A package without item builds (no descriptor, or descriptors whose
    entries have none) is a success: the run makes the four
    announcements, starts no write and reports finished. *)
Theorem empty_package_finishes
  (env : Env) (source : string) (files : list (list RawBuildFile)) :
  reachesWriting env source files ->
  (forall ts, Permutation (settleOrder env ts) ts) ->
  flat_map (flat_map itemBuilds) files = [] ->
  prepareSourceData env source
  = mkRun (announced source ++ [finishedMsg source]) [].
Proof.
  intros Hw Hperm Hempty.
  rewrite (prepareSourceData_writing env source files Hw).
  assert (Hnone : allFiles source files = []).
  { apply (map_eq_nil block).
    rewrite allFiles_blocks. exact Hempty. }
  unfold writesOf. rewrite Hnone. simpl map.
  now rewrite (Permutation_nil (Permutation_sym (Hperm []))).
Qed.

Lemma empty_package_finishes_witness :
  map msg (messages (prepareSourceData
                       (world (Resolved tt) [[]; [mkRaw "Ahri" None []]]
                              (fun _ => Written)) "op"))
  = ["Fetched metadata for op"; "Downloading tarball for op";
     "Downloaded tarball for op"; "Extracted data for op"; "[op] Finished."].
Proof.
  rewrite (empty_package_finishes
             (world (Resolved tt) [[]; [mkRaw "Ahri" None []]] (fun _ => Written))
             "op" [[]; [mkRaw "Ahri" None []]]).
  - reflexivity.
  - exists "https://registry.npmjs.org/@champ-r/op/-/op-1.0.0.tgz"%string,
           "tarball-bytes"%string.
    repeat split.
  - intros ts. apply Permutation_refl.
  - reflexivity.
Defined.

(** *** Keeping sources and builds apart *)

Lemma string_length_append (a b : string) :
  String.length (a ++ b)%string = String.length a + String.length b.
Proof. induction a as [|x a IH]; simpl; [reflexivity|now rewrite IH]. Qed.

Lemma append_inv_tail (t : string) :
  forall a b : string, (a ++ t = b ++ t)%string -> a = b.
Proof.
  induction a as [|x a IH]; intros [|y b] H; simpl in H.
  - reflexivity.
  - exfalso. apply (f_equal String.length) in H. simpl in H.
    rewrite string_length_append in H. lia.
  - exfalso. apply (f_equal String.length) in H. simpl in H.
    rewrite string_length_append in H. lia.
  - injection H as -> H. f_equal. now apply IH.
Qed.

(** Two different sources never share the registry address looked up
    nor the working directory unpacked into. *)
Theorem sources_kept_apart (source source' : string) :
  source <> source' ->
  registryUrl source <> registryUrl source'
  /\ cwdOf source <> cwdOf source'.
Proof.
  unfold registryUrl, cwdOf. intros Hne. split; intros H; apply Hne.
  - apply append_inv_head in H. now apply append_inv_tail in H.
  - apply append_inv_head in H. now apply append_inv_tail in H.
Qed.

Lemma sources_kept_apart_witness :
  registryUrl "op.gg" <> registryUrl "op.gg-aram"
  /\ cwdOf "op.gg" <> cwdOf "op.gg-aram".
Proof.
  apply (sources_kept_apart "op.gg" "op.gg-aram"). discriminate.
Defined.

(** The builds of one champion never collide among themselves, whatever
    its alias and positions look like: for one source and one alias,
    equal file names mean the same index and the same position prefix,
    hence the same position whenever one is given. *)
Theorem one_champion_never_collides
  (source championAlias : string) (p p' : option string) (idx idx' : nat) :
  fileNameOf source p championAlias idx = fileNameOf source p' championAlias idx' ->
  idx = idx'
  /\ pStr p = pStr p'
  /\ (truthy p = true -> p = p').
Proof.
  intros H. unfold fileNameOf in H. simpl in H.
  injection H as H. apply append_inv_head in H.
  simpl in H. injection H as H.
  rewrite <- !append_assoc in H.
  destruct (cut_at_last "-" _ _ _ _
              (digits_lack_hyphen _) (digits_lack_hyphen _) H) as [Hpc Hn].
  apply numberToString_inj in Hn. apply append_inv_tail in Hpc.
  split; [lia|]. split; [exact Hpc|].
  intros Ht. unfold pStr in Hpc. rewrite Ht in Hpc.
  destruct p as [q|]; [|discriminate].
  destruct p' as [q'|].
  - destruct (truthy (Some q')).
    + apply append_inv_tail in Hpc. now subst.
    + exfalso. apply (f_equal String.length) in Hpc.
      rewrite string_length_append in Hpc. simpl in Hpc. lia.
  - exfalso. apply (f_equal String.length) in Hpc.
    rewrite string_length_append in Hpc. simpl in Hpc. lia.
Qed.

Lemma one_champion_never_collides_witness :
  fileNameOf "op" (Some "") "Ahri" 0 = "[OP] Ahri-1"
  /\ 0 = 0
  /\ pStr (Some "") = pStr None.
Proof.
  destruct (one_champion_never_collides "op" "Ahri" (Some "") None 0 0 eq_refl)
    as [Hi [Hp _]].
  split; [reflexivity|]. split; [exact Hi|exact Hp].
Defined.

End IngestRunFacts.

(** ** The popup window and its stored settings *)

Section ShellFacts.
Import Shell.
Local Open Scope Q_scope.

Lemma step_agree (s : State) (e : Event) : agree s -> agree (step s e).
Proof.
  unfold agree. intros H.
  destruct e; unfold step;
    destruct (popupWindow s) as [w|] eqn:E; cbn; rewrite ?E; auto.
Qed.

(** Whatever is done to the popup (created, moved, pinned and unpinned,
    reset, closed, created again), the window and the stored setting
    never disagree on whether the popup stays on top. *)
Theorem always_on_top_matches_setting (es : list Event) :
  forall s : State, agree s -> agree (run s es).
Proof.
  unfold run. induction es as [|e es IH]; intros s H; simpl; [exact H|].
  apply IH. now apply step_agree.
Qed.

Lemma always_on_top_matches_setting_witness :
  let s := run (mkState (mkPopupConfig None None None None false) None)
               [Created false (mkRect 0 0 1920 1080); ToggleAlwaysOnTop;
                Closed; ResetPosition (mkRect 0 0 1920 1080);
                Created false (mkRect 0 0 1920 1080); ToggleAlwaysOnTop] in
  option_map isAlwaysOnTop (popupWindow s) = Some false
  /\ agree s.
Proof.
  intros s. split; [reflexivity|].
  apply (always_on_top_matches_setting _
           (mkState (mkPopupConfig None None None None false) None)).
  exact I.
Defined.

Lemma orElse_given (q d : Q) : Qeq_bool q 0 = false -> orElse (Some q) d = q.
Proof. intros H. unfold orElse. now rewrite H. Qed.

(** A popup moved or resized to a rectangle with no zero coordinate
    comes back exactly there when it is closed and created again, once
    the debounced listener has stored its bounds. *)
Theorem popup_bounds_are_restored
  (s : State) (w : PopupWindow) (b : Rectangle)
  (isDev : bool) (curDisplay : Rectangle) :
  popupWindow s = Some w ->
  nowhereZero b = true ->
  option_map getBounds
    (popupWindow (run s [UserMoves b; PersistFires; Closed;
                         Created isDev curDisplay]))
  = Some b.
Proof.
  intros Hw Hb. unfold run. cbn -[orElse Qeq_bool]. rewrite Hw.
  cbn -[orElse Qeq_bool].
  unfold nowhereZero in Hb.
  repeat (apply andb_true_iff in Hb as [Hb ?]).
  rewrite !orElse_given by (now apply negb_true_iff).
  now destruct b.
Qed.

Lemma popup_bounds_are_restored_witness :
  option_map getBounds
    (popupWindow
       (run (mkState (mkPopupConfig None None None None false)
                     (Some (createPopupWindow false (mkRect 0 0 1920 1080)
                              (mkPopupConfig None None None None false))))
            [UserMoves (mkRect (-300) 40 320 400); PersistFires; Closed;
             Created false (mkRect 0 0 1920 1080)]))
  = Some (mkRect (-300) 40 320 400).
Proof.
  apply (popup_bounds_are_restored _
           (createPopupWindow false (mkRect 0 0 1920 1080)
              (mkPopupConfig None None None None false)));
    reflexivity.
Defined.

(** A stored coordinate of 0 is taken for a missing one: a popup parked
    at the left edge of the screen ([x] = 0) does not come back there
    but at the default place, and likewise at the top edge. *)
Theorem popup_at_zero_is_not_restored
  (s : State) (w : PopupWindow) (b : Rectangle)
  (isDev : bool) (curDisplay : Rectangle) :
  popupWindow s = Some w ->
  (Qeq_bool (x b) 0 = true ->
   option_map (fun p => x (getBounds p))
     (popupWindow (run s [UserMoves b; PersistFires; Closed;
                          Created isDev curDisplay]))
   = Some (if isDev then width curDisplay / 2
           else width curDisplay - 500 - 140))
  /\ (Qeq_bool (y b) 0 = true ->
      option_map (fun p => y (getBounds p))
        (popupWindow (run s [UserMoves b; PersistFires; Closed;
                             Created isDev curDisplay]))
      = Some (height curDisplay / 2)).
Proof.
  intros Hw. unfold run. cbn -[Qeq_bool Qdiv Qminus]. rewrite Hw.
  cbn -[Qeq_bool Qdiv Qminus].
  split; intros Hz; now rewrite Hz.
Qed.

Lemma popup_at_zero_is_not_restored_witness :
  option_map (fun p => x (getBounds p))
    (popupWindow
       (run (mkState (mkPopupConfig None None None None false)
                     (Some (createPopupWindow false (mkRect 0 0 1920 1080)
                              (mkPopupConfig None None None None false))))
            [UserMoves (mkRect 0 40 320 400); PersistFires; Closed;
             Created false (mkRect 0 0 1920 1080)]))
  = Some (1920 - 500 - 140).
Proof.
  apply (popup_at_zero_is_not_restored
           (mkState (mkPopupConfig None None None None false)
                    (Some (createPopupWindow false (mkRect 0 0 1920 1080)
                             (mkPopupConfig None None None None false))))
           (createPopupWindow false (mkRect 0 0 1920 1080)
              (mkPopupConfig None None None None false))
           (mkRect 0 40 320 400) false (mkRect 0 0 1920 1080) eq_refl).
  reflexivity.
Defined.

(** After a position reset the next popup created is pinned on top and
    placed at half the display's width and height, whether or not a
    popup existed at the time of the reset, and whatever was stored
    before. *)
Theorem reset_places_next_popup
  (s : State) (curDisplay : Rectangle) (isDev : bool) (later : Rectangle) :
  Qeq_bool (width curDisplay / 2) 0 = false ->
  Qeq_bool (height curDisplay / 2) 0 = false ->
  option_map (fun p => (x (getBounds p), y (getBounds p), isAlwaysOnTop p))
    (popupWindow (run s [ResetPosition curDisplay; Closed;
                         Created isDev later]))
  = Some (width curDisplay / 2, height curDisplay / 2, true).
Proof.
  intros Hx Hy. unfold run. cbn -[Qeq_bool Qdiv].
  destruct (popupWindow s) as [w|]; cbn -[Qeq_bool Qdiv]; now rewrite Hx, Hy.
Qed.

Lemma reset_places_next_popup_witness :
  option_map (fun p => (x (getBounds p), y (getBounds p), isAlwaysOnTop p))
    (popupWindow
       (run (mkState (mkPopupConfig (Some (-2000)) (Some 3000) None None false) None)
            [ResetPosition (mkRect 0 0 1920 1080); Closed;
             Created true (mkRect 0 0 2560 1440)]))
  = Some (1920 / 2, 1080 / 2, true).
Proof.
  apply (reset_places_next_popup _ (mkRect 0 0 1920 1080)); reflexivity.
Defined.

End ShellFacts.

(** ** The user id *)

Section IdentityFacts.
Import Identity.

Lemma callAll_stored (answers : list string) (u : string) :
  u <> ""%string ->
  callAll answers (Some u) = (repeat u (length answers), Some u).
Proof.
  intros Hu. apply String.eqb_neq in Hu.
  induction answers as [|a answers IH]; simpl; [reflexivity|].
  now rewrite Hu, IH.
Qed.

(** Once a call has returned a non-empty id, every later call returns
    that same id and the stored id stays, whatever the machine would
    answer then: the machine is asked at most once. *)
Theorem user_id_is_stable
  (a : string) (answers : list string) (userId : option string) :
  fst (getMachineId a userId) <> ""%string ->
  callAll (a :: answers) userId
  = (repeat (fst (getMachineId a userId)) (S (length answers)),
     Some (fst (getMachineId a userId))).
Proof.
  intros Hid. simpl.
  assert (Hst : snd (getMachineId a userId) = Some (fst (getMachineId a userId))).
  { unfold getMachineId. destruct userId as [u|]; [|reflexivity].
    now destruct (u =? "")%string. }
  destruct (getMachineId a userId) as [id stored]; simpl in *. subst stored.
  now rewrite (callAll_stored answers id Hid).
Qed.

Lemma user_id_is_stable_witness :
  callAll ["8f2c-a1"; "changed"; ""]%string (Some ""%string)
  = (["8f2c-a1"; "8f2c-a1"; "8f2c-a1"]%string, Some "8f2c-a1"%string).
Proof.
  apply (user_id_is_stable "8f2c-a1" ["changed"; ""]%string (Some ""%string)).
  discriminate.
Defined.

End IdentityFacts.
